(** * ServerApi: the FXServer supervisor of the SDK

    A shallow embedding of [ext/sdk/resources/sdk-root/sdk/src/api/ServerApi.ts].

    The class [ServerApi] is a set of callbacks run by the Node event loop:
    commands arriving on the client bus, connections and lines arriving on the
    IPC pipe, the exit of the child process.  Every callback is embedded as a
    function on a [World], which holds the fields of the class together with
    the parts of the host the callbacks act on: the listeners of the client
    bus, the files below the server directory, the listening IPC servers, the
    child processes, and the list of effects performed so far.

    Conventions of the embedding:
    - an [async] method is run to completion in one step (the callers are
      expected to serialise lifecycle commands); a rejected promise is the
      outcome [Rejected];
    - the link attempts started by [Promise.all] are taken in list order;
    - whatever the host decides (does a file operation fail, what does
      [execFile] return) is read from an [Env] passed with the command;
    - an inbound IPC line is represented by what [JSON.parse] makes of it:
      [None] when it raises, [Some j] otherwise;
    - an outbound IPC line [JSON.stringify([eventType, data]) + '\n'] is kept
      as the pair it serialises. *)

From stdpp Require Import base option list strings gmap fin_maps.

Local Open Scope string_scope.
Local Open Scope list_scope.

(** ** Data *)

(** [ServerStates] of [api.types]. *)
Inductive ServerStates := down | booting | up.

#[global] Instance ServerStates_eq_dec : EqDecision ServerStates.
Proof. solve_decision. Defined.

(** A parsed JSON value; a number keeps its literal. *)
#[local] Unset Elimination Schemes.
Inductive Json :=
| JNull
| JBool (b : bool)
| JNumber (literal : string)
| JString (s : string)
| JArray (items : list Json)
| JObject (members : list (string * Json)).
#[local] Set Elimination Schemes.

(** The request of [serverApi.start] and of [serverApi.refreshResources]. *)
Record ServerStartRequest := {
  projectPath : string;
  enabledResourcesPaths : list string;
}.

(** The request of [SystemEvent.relinkResources]. *)
Record RelinkResourcesRequest := {
  relinkProjectPath : string;
  resourcesPaths : list string;
  restartResourcesWithPath : option string;
}.

(** What a path of the file system holds. *)
Inductive Node := Directory | Symlink (source : string).

#[global] Instance Node_eq_dec : EqDecision Node.
Proof. solve_decision. Defined.

(** Errors raised by the host. *)
Inductive Error :=
| EEXIST (path : string)
| EFAIL (syscall path : string)
| TypeError
| SyntaxError.

(** The events of the client bus the class listens to ([serverApi.*] of
    [./events]). *)
Inductive ClientEvent :=
| ev_ackState | ev_start | ev_stop | ev_restartResource | ev_refreshResources
| ev_ackResourcesState | ev_stopResource | ev_startResource.

#[global] Instance ClientEvent_eq_dec : EqDecision ClientEvent.
Proof. solve_decision. Defined.

(** The closures handed to [client.on]: five by the constructor, four by
    every IPC connection. *)
Inductive Closure :=
| on_ackState | on_start | on_stop | on_restartResource | on_refreshResources
| conn_ackResourcesState | conn_restartResource | conn_stopResource
| conn_startResource.

(** A message put on the client bus by the user interface. *)
Inductive ClientMessage :=
| msg_ackState
| msg_start (request : ServerStartRequest)
| msg_stop
| msg_restartResource (resourceName : string)
| msg_refreshResources (request : ServerStartRequest)
| msg_ackResourcesState
| msg_stopResource (resourceName : string)
| msg_startResource (resourceName : string).

Definition event_of (m : ClientMessage) : ClientEvent :=
  match m with
  | msg_ackState => ev_ackState
  | msg_start _ => ev_start
  | msg_stop => ev_stop
  | msg_restartResource _ => ev_restartResource
  | msg_refreshResources _ => ev_refreshResources
  | msg_ackResourcesState => ev_ackResourcesState
  | msg_stopResource _ => ev_stopResource
  | msg_startResource _ => ev_startResource
  end.

(** What [client.emit] sends to the user interface. *)
Inductive Emitted :=
| emit_state (s : ServerStates)
| emit_clearOutput
| emit_output (data : string)
| emit_resourcesState (data : option Json).

(** What [client.log] is called with. *)
Inductive LogLine :=
| log_starting (projectPath : string) (resources : list string)
| log_failed_to_start
| log_server_output (data : string)
| log_failed_to_link (e : Error)
| log_restarting (resourceName : string)
| log_no_ipcSocket (eventType : string) (data : option string)
| log_sending (eventType : string) (data : option string)
| log_connection
| log_error_parsing (line : option Json) (e : Error).

(** The calls made to the host, in the order they are made.  [Invoke] records
    that the client bus ran the listener with that handle. *)
Inductive Effect :=
| Log (l : LogLine)
| Emit (e : Emitted)
| IpcWrite (socket : nat) (eventType : string) (data : option string)
| Rimraf (path : string)
| Mkdirp (path : string)
| FsSymlink (source dest : string)
| ExecFile (file : string) (args : list string) (cwd : string)
| Kill (pid : nat)
| Listen (ipcServer : nat) (pipe : string)
| Close (ipcServer : nat)
| Invoke (handle : nat).

(** What [cp.execFile] returns. *)
Inductive Spawned :=
| no_process
| no_stdout (pid : nat)
| process (pid : nat).

(** The decisions of the host during one command. *)
Record Env := {
  rimraf_fails : string -> bool;
  mkdirp_fails : string -> bool;
  symlink_fails : string -> string -> bool;
  execFile_returns : Spawned;
}.

(** The [path] module of Node and the constants of [../paths] and
    [./constants], none of which is part of this file. [inside d p] tells
    whether [p] is [d] or lies below it. *)
Class Host := {
  basename : string -> string;
  join : string -> string -> string;
  inside : string -> string -> bool;
  sdkGame : string;
  serverContainer : string;
  sdkGamePipeName : string;
}.

(** A listener of the client bus: the handle [client.on] returned for it (its
    disposer), the event and the closure. *)
Record Listener := {
  handle : nat;
  listens_to : ClientEvent;
  closure : Closure;
}.

(** The fields of [ServerApi] (the first five) and the host state. *)
Record World := mkWorld {
  state : ServerStates;
  ipcServer : option nat;
  ipcSocket : option nat;
  server : option nat;
  currentEnabledResourcesPaths : list string;
  (** listeners of the client bus, oldest first *)
  listeners : list Listener;
  (** the next handle [client.on] or [net.createServer] gives out *)
  next_handle : nat;
  (** the [disposableHandlers] of every IPC server made by [setupIpc] *)
  disposableHandlers : gmap nat (list nat);
  (** the child processes that have the ['exit'] listener of [start] *)
  children : list nat;
  files : gmap string Node;
  effects : list Effect;
}.

Definition set_state (s : ServerStates) (w : World) : World :=
  mkWorld s (ipcServer w) (ipcSocket w) (server w)
    (currentEnabledResourcesPaths w) (listeners w) (next_handle w)
    (disposableHandlers w) (children w) (files w) (effects w).

Definition set_ipcServer (s : option nat) (w : World) : World :=
  mkWorld (state w) s (ipcSocket w) (server w)
    (currentEnabledResourcesPaths w) (listeners w) (next_handle w)
    (disposableHandlers w) (children w) (files w) (effects w).

Definition set_ipcSocket (s : option nat) (w : World) : World :=
  mkWorld (state w) (ipcServer w) s (server w)
    (currentEnabledResourcesPaths w) (listeners w) (next_handle w)
    (disposableHandlers w) (children w) (files w) (effects w).

Definition set_server (s : option nat) (w : World) : World :=
  mkWorld (state w) (ipcServer w) (ipcSocket w) s
    (currentEnabledResourcesPaths w) (listeners w) (next_handle w)
    (disposableHandlers w) (children w) (files w) (effects w).

Definition set_currentEnabledResourcesPaths (l : list string) (w : World)
  : World :=
  mkWorld (state w) (ipcServer w) (ipcSocket w) (server w)
    l (listeners w) (next_handle w)
    (disposableHandlers w) (children w) (files w) (effects w).

Definition set_listeners (l : list Listener) (w : World) : World :=
  mkWorld (state w) (ipcServer w) (ipcSocket w) (server w)
    (currentEnabledResourcesPaths w) l (next_handle w)
    (disposableHandlers w) (children w) (files w) (effects w).

Definition set_next_handle (n : nat) (w : World) : World :=
  mkWorld (state w) (ipcServer w) (ipcSocket w) (server w)
    (currentEnabledResourcesPaths w) (listeners w) n
    (disposableHandlers w) (children w) (files w) (effects w).

Definition set_disposableHandlers (d : gmap nat (list nat)) (w : World)
  : World :=
  mkWorld (state w) (ipcServer w) (ipcSocket w) (server w)
    (currentEnabledResourcesPaths w) (listeners w) (next_handle w)
    d (children w) (files w) (effects w).

Definition set_children (c : list nat) (w : World) : World :=
  mkWorld (state w) (ipcServer w) (ipcSocket w) (server w)
    (currentEnabledResourcesPaths w) (listeners w) (next_handle w)
    (disposableHandlers w) c (files w) (effects w).

Definition set_files (f : gmap string Node) (w : World) : World :=
  mkWorld (state w) (ipcServer w) (ipcSocket w) (server w)
    (currentEnabledResourcesPaths w) (listeners w) (next_handle w)
    (disposableHandlers w) (children w) f (effects w).

(** Performing an effect appends it to the record of the world. *)
Definition perform (e : Effect) (w : World) : World :=
  mkWorld (state w) (ipcServer w) (ipcSocket w) (server w)
    (currentEnabledResourcesPaths w) (listeners w) (next_handle w)
    (disposableHandlers w) (children w) (files w) (effects w ++ [e]).

(** ** Asynchronous computations *)

Inductive Outcome (A : Type) :=
| Returned (a : A)
| Rejected (e : Error).
Arguments Returned {A} a.
Arguments Rejected {A} e.

Definition Async (A : Type) : Type := World -> Outcome A * World.

Definition ret {A} (a : A) : Async A := fun w => (Returned a, w).

Definition bind {A B} (m : Async A) (k : A -> Async B) : Async B :=
  fun w =>
    match m w with
    | (Returned a, w') => k a w'
    | (Rejected e, w') => (Rejected e, w')
    end.

(** A step that cannot fail. *)
Definition lift (f : World -> World) : Async unit :=
  fun w => (Returned tt, f w).

(** [try { m } catch (e) { h e }]. *)
Definition try_catch (m : Async unit) (h : Error -> World -> World)
  : Async unit :=
  fun w =>
    match m w with
    | (Returned a, w') => (Returned a, w')
    | (Rejected e, w') => (Returned tt, h e w')
    end.

Notation "m >>> k" := (bind m (fun _ => k))
  (at level 65, right associativity).

(** The world a computation leaves, whatever its outcome. *)
Definition after {A} (m : Async A) (w : World) : World := (m w).2.

(** ** The class *)

Section ServerApi.
Context `{Host}.

(** FIXME of the source: proper latest version fetching. *)
Definition latestVersion : string := "2972".

Definition getProjectServerPath (projectPath : string) : string :=
  join projectPath ".fxserver".

(** *** The host *)

(** [rimraf(dir)]: removes [dir] and all below it. A failure leaves the files
    as they were. *)
Definition sweep (dir : string) (fs : gmap string Node) : gmap string Node :=
  filter (fun kv => inside dir kv.1 = false) fs.

Definition rimraf (env : Env) (dir : string) : Async unit := fun w =>
  let w := perform (Rimraf dir) w in
  if rimraf_fails env dir then (Rejected (EFAIL "rimraf" dir), w)
  else (Returned tt, set_files (sweep dir (files w)) w).

(** [mkdirp(dir)]: makes [dir] unless the path is there already. *)
Definition make_dir (dir : string) (fs : gmap string Node)
  : gmap string Node :=
  match fs !! dir with
  | Some _ => fs
  | None => <[dir := Directory]> fs
  end.

Definition mkdirp (env : Env) (dir : string) : Async unit := fun w =>
  let w := perform (Mkdirp dir) w in
  if mkdirp_fails env dir then (Rejected (EFAIL "mkdir" dir), w)
  else (Returned tt, set_files (make_dir dir (files w)) w).

(** [fs.promises.symlink(source, dest, 'dir')]: fails when [dest] exists. *)
Definition symlink (env : Env) (source dest : string) : Async unit := fun w =>
  let w := perform (FsSymlink source dest) w in
  match files w !! dest with
  | Some _ => (Rejected (EEXIST dest), w)
  | None =>
      if symlink_fails env source dest
      then (Rejected (EFAIL "symlink" dest), w)
      else (Returned tt, set_files (<[dest := Symlink source]> (files w)) w)
  end.

(** Modelled from the spec: [ApiClient] of [./api.types] is not part of this
    file. A registration on the client bus returns its disposer, a
    subscription token; here the handle of the new listener. *)
Definition client_on (e : ClientEvent) (c : Closure) (w : World)
  : nat * World :=
  let h := next_handle w in
  (h, set_next_handle (S h)
        (set_listeners (listeners w ++ [Build_Listener h e c]) w)).

(** Modelled from the spec: calling the disposer [h] releases the listener
    it was returned for. *)
Definition dispose (h : nat) (w : World) : World :=
  set_listeners (filter (fun l => handle l <> h) (listeners w)) w.

(** *** Methods *)

Definition ackState (w : World) : World :=
  perform (Emit (emit_state (state w))) w.

Definition toState (newState : ServerStates) (w : World) : World :=
  ackState (set_state newState w).

Definition sendIpcEvent (eventType : string) (data : option string)
    (w : World) : World :=
  match ipcSocket w with
  | None => perform (Log (log_no_ipcSocket eventType data)) w
  | Some socket =>
      perform (IpcWrite socket eventType data)
        (perform (Log (log_sending eventType data)) w)
  end.

Definition stop (w : World) : World :=
  match server w with
  | Some pid => perform (Kill pid) w
  | None => w
  end.

Definition handleResourceRestart (resourceName : string) (w : World)
  : World :=
  sendIpcEvent "restart" (Some resourceName)
    (perform (Log (log_restarting resourceName)) w).

(** The links [linkResources] makes: the bridge resource first. *)
Definition resource_links (resourcesDirectoryPath : string)
    (resourcesPaths : list string) : list (string * string) :=
  (sdkGame, join resourcesDirectoryPath "sdk-game")
  :: map (fun resourcePath =>
            (resourcePath,
             join resourcesDirectoryPath (basename resourcePath)))
       resourcesPaths.

Definition link_one (env : Env) (l : string * string) : Async unit :=
  try_catch (symlink env l.1 l.2)
    (fun e => perform (Log (log_failed_to_link e))).

Fixpoint link_all (env : Env) (links : list (string * string))
  : Async unit :=
  match links with
  | [] => ret tt
  | l :: links => link_one env l >>> link_all env links
  end.

Definition linkResources (env : Env) (fxserverCwd : string)
    (resourcesPaths : list string) : Async unit :=
  let resourcesDirectoryPath := join fxserverCwd "resources" in
  rimraf env resourcesDirectoryPath >>>
  mkdirp env resourcesDirectoryPath >>>
  link_all env (resource_links resourcesDirectoryPath resourcesPaths) >>>
  lift (sendIpcEvent "refresh" None).

Definition truthy (s : option string) : bool :=
  match s with
  | Some (String _ _) => true
  | _ => false
  end.

Definition startsWith (s p : string) : bool := String.prefix p s.

Fixpoint forEach {A} (f : A -> World -> World) (l : list A) (w : World)
  : World :=
  match l with
  | [] => w
  | x :: l => forEach f l (f x w)
  end.

Definition handleRelinkResources (env : Env) (request : RelinkResourcesRequest)
  : Async unit := fun w =>
  if decide (state w <> up) then (Returned tt, w)
  else
    let fxserverCwd := getProjectServerPath (relinkProjectPath request) in
    let resourcesToRestart :=
      if truthy (restartResourcesWithPath request)
      then map basename
             (filter (fun resourcePath =>
                        startsWith resourcePath
                          (default "" (restartResourcesWithPath request))
                        = true)
                (currentEnabledResourcesPaths w))
      else [] in
    (linkResources env fxserverCwd (resourcesPaths request) >>>
     lift (forEach (fun resourceName =>
                      sendIpcEvent "restart" (Some resourceName))
             resourcesToRestart)) w.

Definition refreshResources (env : Env) (request : ServerStartRequest)
  : Async unit :=
  let fxserverCwd := getProjectServerPath (projectPath request) in
  mkdirp env fxserverCwd >>>
  linkResources env fxserverCwd (enabledResourcesPaths request) >>>
  lift (sendIpcEvent "refresh" None).

(** [setupIpc]: a new server with an empty [disposableHandlers], listening. *)
Definition setupIpc (w : World) : World :=
  let srv := next_handle w in
  perform (Listen srv sdkGamePipeName)
    (set_ipcServer (Some srv)
       (set_disposableHandlers (<[srv := []]> (disposableHandlers w))
          (set_next_handle (S srv) w))).

Definition fxserverArgs (enabledResourcesPaths : list string) : list string :=
  fold_left
    (fun (args : list string) resourcePath =>
       args ++ ["+ensure"; basename resourcePath])
    enabledResourcesPaths
    [ "+exec"; "blank";
      "+endpoint_add_tcp"; "127.0.0.1:30120";
      "+endpoint_add_udp"; "127.0.0.1:30120";
      "+set"; "onesync"; "on";
      "+set"; "sv_maxclients"; "64";
      "+set"; "sv_lan"; "1";
      "+add_ace"; "resource.sdk-game"; "command"; "allow";
      "+ensure"; "sdk-game" ].

Definition start (env : Env) (request : ServerStartRequest) : Async unit :=
  let fxserverCwd := getProjectServerPath (projectPath request) in
  lift (perform (Log (log_starting (projectPath request)
                        (enabledResourcesPaths request)))) >>>
  lift (perform (Emit emit_clearOutput)) >>>
  lift (toState booting) >>>
  mkdirp env fxserverCwd >>>
  linkResources env fxserverCwd (enabledResourcesPaths request) >>>
  let fxserverPath :=
    join (join serverContainer latestVersion) "FXServer.exe" in
  lift (perform (ExecFile fxserverPath
                   (fxserverArgs (enabledResourcesPaths request))
                   fxserverCwd)) >>>
  match execFile_returns env with
  | no_process | no_stdout _ => lift (perform (Log log_failed_to_start))
  | process pid =>
      lift setupIpc >>>
      lift (fun w => set_children (children w ++ [pid]) w) >>>
      lift (set_server (Some pid)) >>>
      lift (set_currentEnabledResourcesPaths (enabledResourcesPaths request))
  end.

(** *** Callbacks of the child process *)

(** [server.stdout.on('data', ...)]. *)
Definition server_stdout_data (data : string) (w : World) : World :=
  perform (Emit (emit_output data)) (perform (Log (log_server_output data)) w).

(** [server.on('exit', ...)]. *)
Definition server_exit (w : World) : World :=
  let w := match ipcServer w with
           | Some srv => perform (Close srv) w
           | None => w
           end in
  toState down (set_server None w).

(** [process.on('exit', ...)] of the constructor. *)
Definition process_exit (w : World) : World := stop w.

(** *** Callbacks of the IPC server *)

(** [ipcServer.on('connection', ...)] of the server [srv]. *)
Definition ipc_connection (srv socket : nat) (w : World) : World :=
  let w := set_ipcSocket (Some socket) w in
  let w := perform (Log log_connection) w in
  let '(h1, w) := client_on ev_ackResourcesState conn_ackResourcesState w in
  let '(h2, w) := client_on ev_restartResource conn_restartResource w in
  let '(h3, w) := client_on ev_stopResource conn_stopResource w in
  let '(h4, w) := client_on ev_startResource conn_startResource w in
  set_disposableHandlers
    (<[srv := default [] (disposableHandlers w !! srv) ++ [h1; h2; h3; h4]]>
       (disposableHandlers w)) w.

(** [const [type, data] = value]: the first two items of an array or of the
    characters of a string; any other value is not iterable. *)
Definition destructure (value : Json)
  : Outcome (option Json * option Json) :=
  match value with
  | JArray items => Returned (items !! 0%nat, items !! 1%nat)
  | JString s =>
      Returned (match s with
                | String a (String b _) =>
                    (Some (JString (String a "")),
                     Some (JString (String b "")))
                | String a "" => (Some (JString (String a "")), None)
                | "" => (None, None)
                end)
  | _ => Rejected TypeError
  end.

(** [type === s] for a string literal [s], as [switch] compares. *)
Definition is_string (type : option Json) (s : string) : bool :=
  match type with
  | Some (JString t) => String.eqb t s
  | _ => false
  end.

(** [lineStream.on('data', ...)]; [line] is [JSON.parse(msg.toString())]. *)
Definition ipc_data (line : option Json) (w : World) : World :=
  let body : Async unit := fun w =>
    match line with
    | None => (Rejected SyntaxError, w)
    | Some value =>
        match destructure value with
        | Rejected e => (Rejected e, w)
        | Returned (type, data) =>
            if is_string type "state"
            then (Returned tt, perform (Emit (emit_resourcesState data)) w)
            else if is_string type "ready"
            then (Returned tt, toState up w)
            else (Returned tt, w)
        end
    end in
  after (try_catch body
           (fun e => perform (Log (log_error_parsing line e)))) w.

(** [ipcServer.on('close', ...)] of the server [srv]. *)
Definition ipc_close (srv : nat) (w : World) : World :=
  let w := set_ipcServer None w in
  let w := set_ipcSocket None w in
  let disposeHandlersCopy := default [] (disposableHandlers w !! srv) in
  let w := set_disposableHandlers (<[srv := []]> (disposableHandlers w)) w in
  forEach dispose disposeHandlersCopy w.

(** *** The client bus *)

(** Running a listener's closure on a message. *)
Definition call (env : Env) (c : Closure) (m : ClientMessage) (w : World)
  : World :=
  match c, m with
  | on_ackState, _ => ackState w
  | on_start, msg_start request => after (start env request) w
  | on_stop, _ => stop w
  | on_restartResource, msg_restartResource resourceName =>
      handleResourceRestart resourceName w
  | on_refreshResources, msg_refreshResources request =>
      after (refreshResources env request) w
  | conn_ackResourcesState, _ => sendIpcEvent "state" None w
  | conn_restartResource, msg_restartResource resourceName =>
      sendIpcEvent "restart" (Some resourceName) w
  | conn_stopResource, msg_stopResource resourceName =>
      sendIpcEvent "stop" (Some resourceName) w
  | conn_startResource, msg_startResource resourceName =>
      sendIpcEvent "start" (Some resourceName) w
  | _, _ => w
  end.

(** Modelled from the spec: the dispatch of [ApiClient]. The user interface
    emits [m]: every listener of its event runs, oldest first. *)
Definition client_receives (env : Env) (m : ClientMessage) (w : World)
  : World :=
  forEach (fun l w => call env (closure l) m (perform (Invoke (handle l)) w))
    (filter (fun l => listens_to l = event_of m) (listeners w)) w.

End ServerApi.

(** ** The event loop *)

(** What the event loop can deliver to the class. *)
Inductive Event :=
| ClientSends (env : Env) (m : ClientMessage)
| SystemRelinkResources (env : Env) (request : RelinkResourcesRequest)
| SystemRestartResource (resourceName : string)
| SupervisorExits
| IpcConnection (srv socket : nat)
| IpcPeerCloses (socket : nat)
| IpcData (line : option Json)
| IpcServerCloses (srv : nat)
| ServerStdout (pid : nat) (data : string)
| ServerExits (pid : nat).

Section EventLoop.
Context `{Host}.

(** [new ServerApi(client)] on a host with the given files. The two
    listeners on [systemEvents] and the one on [process] are the events
    [SystemRelinkResources], [SystemRestartResource] and [SupervisorExits]. *)
Definition constructor (fs : gmap string Node) : World :=
  let w := mkWorld down None None None [] [] 0 ∅ [] fs [] in
  let w := (client_on ev_ackState on_ackState w).2 in
  let w := (client_on ev_start on_start w).2 in
  let w := (client_on ev_stop on_stop w).2 in
  let w := (client_on ev_restartResource on_restartResource w).2 in
  (client_on ev_refreshResources on_refreshResources w).2.

(** One turn of the event loop. A callback runs only where the source has
    installed it: those of an IPC server once [setupIpc] has made the server,
    those of a child process while the process is alive; nothing listens to
    the close of a peer socket. *)
Definition step (e : Event) (w : World) : World :=
  match e with
  | ClientSends env m => client_receives env m w
  | SystemRelinkResources env request =>
      after (handleRelinkResources env request) w
  | SystemRestartResource resourceName => handleResourceRestart resourceName w
  | SupervisorExits => process_exit w
  | IpcConnection srv socket =>
      if decide (is_Some (disposableHandlers w !! srv))
      then ipc_connection srv socket w else w
  | IpcPeerCloses _ => w
  | IpcData line => ipc_data line w
  | IpcServerCloses srv =>
      if decide (is_Some (disposableHandlers w !! srv))
      then ipc_close srv w else w
  | ServerStdout pid data =>
      if decide (pid ∈ children w) then server_stdout_data data w else w
  | ServerExits pid =>
      if decide (pid ∈ children w)
      then server_exit (set_children (filter (fun p => p <> pid) (children w)) w)
      else w
  end.

Definition run (es : list Event) (w : World) : World := forEach step es w.

End EventLoop.

(** ** Observations *)

(** The state broadcasts among some effects. *)
Definition broadcasts (es : list Effect) : list ServerStates :=
  omap (fun e => match e with Emit (emit_state s) => Some s | _ => None end) es.

(** The IPC lines written among some effects. *)
Definition written (es : list Effect) : list (nat * string * option string) :=
  omap (fun e => match e with
                 | IpcWrite socket eventType data =>
                     Some (socket, eventType, data)
                 | _ => None
                 end) es.

(** ** Vocabulary of the specification *)

(** A value [const [type, data] = value] can destructure. *)
Definition iterable (value : Json) : bool :=
  match value with
  | JArray _ | JString _ => true
  | _ => false
  end.

(** A line as the wire format has it: an array of a type and a payload. *)
Definition well_formed (line : option Json) : Prop :=
  exists type payload, line = Some (JArray [JString type; payload]).

(** The launches among some effects: the argument lists given to
    [cp.execFile]. *)
Definition launches (es : list Effect) : list (list string) :=
  omap (fun e => match e with ExecFile _ args _ => Some args | _ => None end) es.

(** The link attempts among some effects. *)
Definition attempts (es : list Effect) : list (string * string) :=
  omap (fun e => match e with
                 | FsSymlink source dest => Some (source, dest)
                 | _ => None
                 end) es.

(** The listeners run among some effects. *)
Definition invoked (es : list Effect) : list nat :=
  omap (fun e => match e with Invoke h => Some h | _ => None end) es.

(** Everything of a world but its files and effects. *)
Definition fields (w : World) :=
  (state w, ipcServer w, ipcSocket w, server w,
   currentEnabledResourcesPaths w, listeners w, next_handle w,
   disposableHandlers w, children w).

(** [w'] has the effects of [w] and then some, all of them in [P]. *)
Definition adds (P : Effect -> Prop) (w w' : World) : Prop :=
  exists d, effects w' = effects w ++ d /\ Forall P d.

(** Calls to the file system and to the IPC socket, and logging. *)
Definition fs_or_ipc (e : Effect) : Prop :=
  match e with
  | Log _ | IpcWrite _ _ _ | Rimraf _ | Mkdirp _ | FsSymlink _ _ => True
  | _ => False
  end.

(** What [sendIpcEvent] performs, given the peer. *)
Definition send_effects (peer : option nat) (eventType : string)
    (data : option string) : list Effect :=
  match peer with
  | None => [Log (log_no_ipcSocket eventType data)]
  | Some socket => [Log (log_sending eventType data);
                    IpcWrite socket eventType data]
  end.

(** What one link attempt performs: the call, and a log line if it failed. *)
Definition attempt_effects (l : string * string) (d : list Effect) : Prop :=
  d = [FsSymlink l.1 l.2]
  \/ exists e, d = [FsSymlink l.1 l.2; Log (log_failed_to_link e)].

(** What the link attempts leave at path [p], which held [o] before. *)
Fixpoint link_result (env : Env) (links : list (string * string))
    (p : string) (o : option Node) : option Node :=
  match links with
  | [] => o
  | l :: links =>
      link_result env links p
        (if decide (l.2 = p)
         then match o with
              | Some n => Some n
              | None => if symlink_fails env l.1 l.2 then None
                        else Some (Symlink l.1)
              end
         else o)
  end.

(** Effects that are neither a state broadcast, nor a launch, nor the run of a
    listener. *)
Definition quiet (e : Effect) : Prop :=
  match e with
  | Emit (emit_state _) | ExecFile _ _ _ | Invoke _ => False
  | _ => True
  end.

(** [w'] differs from [w] in its files and by quiet effects only. *)
Definition idle (w w' : World) : Prop :=
  fields w' = fields w /\ adds quiet w w'.

(** [w'] has the state and the child processes of [w], and has broadcast
    nothing but that state. *)
Definition calm (w w' : World) : Prop :=
  state w' = state w /\ children w' = children w
  /\ exists k, broadcasts (effects w')
               = broadcasts (effects w) ++ replicate k (state w).

(** The line carries the type [ready]. *)
Definition ready_line (line : option Json) : bool :=
  match line with
  | Some value =>
      match destructure value with
      | Returned (type, _) => is_string type "ready"
      | Rejected _ => false
      end
  | None => false
  end.

Definition announces_ready (e : Event) : bool :=
  match e with
  | IpcData line => ready_line line
  | _ => false
  end.

(** The events between a start and the exit of the process it launched: no
    other start, no exit of a process. *)
Definition between (e : Event) : Prop :=
  match e with
  | ClientSends _ (msg_start _) | ServerExits _ => False
  | _ => True
  end.

(** Where a world stands between the start and the exit, [seen] being what
    was broadcast before the start: the process is alive, [booting] was
    broadcast at least once and then [up] [m] times, and the state is the
    last of them. *)
Definition phase (seen : list ServerStates) (pid n m : nat) (w : World)
  : Prop :=
  pid ∈ children w
  /\ broadcasts (effects w)
     = seen ++ replicate (S n) booting ++ replicate m up
  /\ state w = match m with 0 => booting | S _ => up end.

(** The handles of the listeners on the client bus. *)
Definition handles (w : World) : list nat := handle <$> listeners w.

(** Handles are given out in increasing order: those of the listeners and of
    the IPC servers lie below the next one. *)
Definition tidy (w : World) : Prop :=
  (forall h, h ∈ handles w -> h < next_handle w)
  /\ (forall s, is_Some (disposableHandlers w !! s) -> s < next_handle w).

(** [w'] has the listeners of [w] and has run the listeners [ran]; handles
    were given out to new IPC servers only. *)
Definition neutral (ran : list nat) (w w' : World) : Prop :=
  listeners w' = listeners w
  /\ next_handle w <= next_handle w'
  /\ (forall s, s < next_handle w ->
        disposableHandlers w' !! s = disposableHandlers w !! s)
  /\ (forall s, is_Some (disposableHandlers w' !! s) ->
        is_Some (disposableHandlers w !! s)
        \/ next_handle w <= s < next_handle w')
  /\ invoked (effects w') = invoked (effects w) ++ ran.

(** The listener [h] has been released for good. *)
Definition gone (h : nat) (w : World) : Prop :=
  tidy w /\ h < next_handle w /\ h ∉ handles w.

(** The listener [h] is in the [disposableHandlers] of the server [srv], or
    has been released already. *)
Definition held (h srv : nat) (w : World) : Prop :=
  tidy w /\ h < next_handle w
  /\ exists d, disposableHandlers w !! srv = Some d
               /\ (h ∈ d \/ h ∉ handles w).

(** The orders of broadcasts the lifecycle is said to allow. *)
Definition lifecycle_order (bs : list ServerStates) : Prop :=
  bs = [booting; up; down] \/ bs = [booting; down].

(** A listener registered by an IPC connection: its handle was given out
    after those of the constructor, and its closure is the one the connection
    registers for its event. *)
Definition connection_listener (l : Listener) : Prop :=
  5 <= handle l
  /\ ((listens_to l = ev_ackResourcesState
       /\ closure l = conn_ackResourcesState)
      \/ (listens_to l = ev_restartResource
          /\ closure l = conn_restartResource)
      \/ (listens_to l = ev_stopResource /\ closure l = conn_stopResource)
      \/ (listens_to l = ev_startResource /\ closure l = conn_startResource)).

(** The listeners of the constructor head the bus, those of the connections
    follow, and only the latter are in a [disposableHandlers]. *)
Definition rooted (w : World) : Prop :=
  5 <= next_handle w
  /\ (exists rest, listeners w = listeners (constructor ∅) ++ rest
                   /\ Forall connection_listener rest)
  /\ (forall srv d h,
        disposableHandlers w !! srv = Some d -> h ∈ d -> 5 <= h).

(** The tracked process has not exited. *)
Definition tracks (w : World) : Prop :=
  forall pid, server w = Some pid -> pid ∈ children w.

(** The last broadcast, if any, is the state. *)
Definition synced (w : World) : Prop :=
  last (broadcasts (effects w)) = Some (state w)
  \/ (broadcasts (effects w) = [] /\ state w = down).

(** The directive a request of the client is forwarded as. *)
Definition directive (m : ClientMessage) : option (string * option string) :=
  match m with
  | msg_restartResource resourceName => Some ("restart", Some resourceName)
  | msg_stopResource resourceName => Some ("stop", Some resourceName)
  | msg_startResource resourceName => Some ("start", Some resourceName)
  | msg_ackResourcesState => Some ("state", None)
  | _ => None
  end.

(** ** A host for the examples *)

Definition slash : Ascii.ascii := Ascii.ascii_of_nat 47.

Fixpoint last_segment (s acc : string) : string :=
  match s with
  | "" => acc
  | String c s =>
      if Ascii.eqb c slash then last_segment s ""
      else last_segment s (acc +:+ String c "")
  end.

(** A POSIX-like host, with example values for the constants. *)
Definition posix : Host := {|
  basename p := last_segment p "";
  join a b := a +:+ "/" +:+ b;
  inside d p := String.eqb d p || String.prefix (d +:+ "/") p;
  sdkGame := "/sdk/resources/sdk-game";
  serverContainer := "/sdk/server";
  sdkGamePipeName := "/tmp/sdk-game";
|}.

(** A host on which nothing fails and [execFile] returns process [pid]. *)
Definition fair (pid : nat) : Env := {|
  rimraf_fails _ := false;
  mkdirp_fails _ := false;
  symlink_fails _ _ := false;
  execFile_returns := process pid;
|}.

Definition request_ab : ServerStartRequest :=
  {| projectPath := "/p"; enabledResourcesPaths := ["/p/res/a"; "/p/res/b"] |}.

Definition request_a : ServerStartRequest :=
  {| projectPath := "/p"; enabledResourcesPaths := ["/p/res/a"] |}.

Definition ready : option Json := Some (JArray [JString "ready"; JNull]).

(** A host on which [rimraf] fails. *)
Definition no_rimraf : Env := {|
  rimraf_fails _ := true;
  mkdirp_fails _ := false;
  symlink_fails _ _ := false;
  execFile_returns := process 7;
|}.



(** The server of [request_ab] up, with the peer socket 1 connected. *)
Definition running : World :=
  @run posix [ClientSends (fair 7) (msg_start request_ab);
              IpcConnection 5 1; IpcData ready] (constructor ∅).

Definition relink_a : RelinkResourcesRequest :=
  {| relinkProjectPath := "/p";
     resourcesPaths := ["/p/res/a"; "/p/res/b"];
     restartResourcesWithPath := Some "/p/res/a" |}.

Definition relink_all : RelinkResourcesRequest :=
  {| relinkProjectPath := "/p";
     resourcesPaths := ["/p/res/a"; "/p/res/b"];
     restartResourcesWithPath := Some "" |}.

(** A host on which [execFile] returns no process. *)
Definition no_launch : Env := {|
  rimraf_fails _ := false;
  mkdirp_fails _ := false;
  symlink_fails _ _ := false;
  execFile_returns := no_process;
|}.

(** A host on which the working directory cannot be made. *)
Definition no_workdir : Env := {|
  rimraf_fails _ := false;
  mkdirp_fails dir := String.eqb dir "/p/.fxserver";
  symlink_fails _ _ := false;
  execFile_returns := process 7;
|}.

(** The events that lead to [running]. *)
Definition boot : list Event :=
  [ClientSends (fair 7) (msg_start request_ab); IpcConnection 5 1;
   IpcData ready].

(** Observations of a world built from [perform]. *)
Ltac observe :=
  unfold broadcasts, invoked, launches, written, attempts;
  simpl; rewrite ?omap_app; simpl; rewrite ?app_nil_r.

(** ** Effects of the linker *)

Section Effects.

Lemma adds_refl P w : adds P w w.
Proof. exists []. by rewrite app_nil_r. Qed.

Lemma adds_trans P w1 w2 w3 : adds P w1 w2 -> adds P w2 w3 -> adds P w1 w3.
Proof.
  intros (d1 & E1 & F1) (d2 & E2 & F2). exists (d1 ++ d2).
  rewrite E2, E1, app_assoc. split; [done|]. by apply Forall_app.
Qed.

Lemma adds_perform (P : Effect -> Prop) e w : P e -> adds P w (perform e w).
Proof. intros. exists [e]. split; [done|]. by constructor. Qed.

Lemma adds_weaken (P Q : Effect -> Prop) w w' :
  (forall e, P e -> Q e) -> adds P w w' -> adds Q w w'.
Proof.
  intros HPQ (d & E & F). exists d. split; [done|].
  eapply Forall_impl; eauto.
Qed.

Lemma adds_omap {A} (f : Effect -> option A) P w w' :
  (forall e, P e -> f e = None) ->
  adds P w w' -> omap f (effects w') = omap f (effects w).
Proof.
  intros Hf (d & -> & F). rewrite omap_app.
  assert (omap f d = []) as ->; [|by rewrite app_nil_r].
  induction F as [|e d He _ IH]; simpl; [done|]. by rewrite (Hf e He).
Qed.

Lemma sendIpcEvent_effects eventType data w :
  effects (sendIpcEvent eventType data w)
  = effects w ++ send_effects (ipcSocket w) eventType data.
Proof.
  unfold sendIpcEvent, send_effects. destruct (ipcSocket w); simpl; [|done].
  by rewrite <- app_assoc.
Qed.

Lemma sendIpcEvent_fields eventType data w :
  fields (sendIpcEvent eventType data w) = fields w
  /\ files (sendIpcEvent eventType data w) = files w.
Proof. unfold sendIpcEvent. by destruct (ipcSocket w). Qed.

Lemma sendIpcEvent_adds eventType data w :
  adds fs_or_ipc w (sendIpcEvent eventType data w).
Proof.
  eexists. split; [apply sendIpcEvent_effects|].
  unfold send_effects. destruct (ipcSocket w); repeat constructor.
Qed.

Context `{Host}.

(** One link attempt: it returns, touches nothing but the files and the
    effects, and changes at most the path it links. *)
Lemma link_one_spec env l w :
  let w' := after (link_one env l) w in
  (link_one env l w).1 = Returned tt
  /\ fields w' = fields w
  /\ (exists d, effects w' = effects w ++ d /\ attempt_effects l d)
  /\ forall p, files w' !! p = link_result env [l] p (files w !! p).
Proof.
  unfold after, link_one, try_catch, symlink, attempt_effects. simpl.
  destruct (files w !! l.2) as [n|] eqn:Hl; simpl.
  - repeat split; auto.
    + eexists. split; [by rewrite <- app_assoc|]. right. by eexists.
    + intros p. case_decide; subst; by rewrite ?Hl.
  - destruct (symlink_fails env l.1 l.2) eqn:Hf; simpl.
    + repeat split; auto.
      * eexists. split; [by rewrite <- app_assoc|]. right. by eexists.
      * intros p. case_decide; subst; by rewrite ?Hl.
    + repeat split; auto.
      * eexists. split; [done|]. by left.
      * intros p. case_decide; subst.
        -- by rewrite lookup_insert_eq, Hl.
        -- by rewrite lookup_insert_ne.
Qed.

(** All link attempts: each link is attempted, in order, whatever became of
    the ones before it. *)
Lemma link_all_spec env links : forall w,
  let w' := after (link_all env links) w in
  (link_all env links w).1 = Returned tt
  /\ fields w' = fields w
  /\ (exists ds, Forall2 attempt_effects links ds
                 /\ effects w' = effects w ++ concat ds)
  /\ forall p, files w' !! p = link_result env links p (files w !! p).
Proof.
  induction links as [|l links IH]; intros w; simpl.
  - repeat split; auto. exists []. split; [constructor|].
    by rewrite app_nil_r.
  - destruct (link_one_spec env l w) as (R1 & F1 & (d & E1 & A1) & L1).
    unfold after, bind in *.
    destruct (link_one env l w) as [[[]|e] w1]; simpl in *; [|done].
    destruct (IH w1) as (R2 & F2 & (ds & A2 & E2) & L2).
    unfold after in *. repeat split.
    + done.
    + by rewrite F2.
    + exists (d :: ds). split; [by constructor|].
      simpl. by rewrite E2, E1, app_assoc.
    + intros p. by rewrite L2, L1.
Qed.

Lemma attempt_effects_fs_or_ipc links ds :
  Forall2 attempt_effects links ds -> Forall fs_or_ipc (concat ds).
Proof.
  induction 1 as [|l d links ds [->|[e ->]] _ IH]; simpl;
    repeat constructor; done.
Qed.


(** [linkResources] in full: the three ways it can go. *)
Lemma linkResources_cases env fxserverCwd resourcesPaths w :
  let dir := join fxserverCwd "resources" in
  let links := resource_links dir resourcesPaths in
  let r := linkResources env fxserverCwd resourcesPaths w in
  fields r.2 = fields w /\
  ((rimraf_fails env dir = true
    /\ r.1 = Rejected (EFAIL "rimraf" dir)
    /\ files r.2 = files w
    /\ effects r.2 = effects w ++ [Rimraf dir])
   \/ (rimraf_fails env dir = false /\ mkdirp_fails env dir = true
       /\ r.1 = Rejected (EFAIL "mkdir" dir)
       /\ files r.2 = sweep dir (files w)
       /\ effects r.2 = effects w ++ [Rimraf dir; Mkdirp dir])
   \/ (rimraf_fails env dir = false /\ mkdirp_fails env dir = false
       /\ r.1 = Returned tt
       /\ (forall p, files r.2 !! p
                     = link_result env links p
                         (make_dir dir (sweep dir (files w)) !! p))
       /\ exists ds, Forall2 attempt_effects links ds
            /\ effects r.2
               = effects w ++ [Rimraf dir; Mkdirp dir] ++ concat ds
                 ++ send_effects (ipcSocket w) "refresh" None)).
Proof.
  intros dir links r. subst r. unfold linkResources.
  fold dir. fold links. clearbody links dir.
  unfold bind, rimraf, mkdirp.
  destruct (rimraf_fails env dir) eqn:Hr; simpl.
  { split; [done|]. left. done. }
  destruct (mkdirp_fails env dir) eqn:Hm; simpl.
  { split; [done|]. right; left. repeat split; auto.
    by rewrite <- app_assoc. }
  match goal with |- context [link_all env links ?w0] =>
    destruct (link_all_spec env links w0) as (R & F & (ds & A & E) & L);
    unfold after in *;
    destruct (link_all env links w0) as [[[]|e] w1]; simpl in *; [|done]
  end.
  unfold lift; simpl.
  destruct (sendIpcEvent_fields "refresh" None w1) as [F' L'].
  split; [by rewrite F', F|].
  right; right. repeat split; auto.
  - intros p. by rewrite L', L.
  - exists ds. split; [done|].
    rewrite sendIpcEvent_effects, E.
    assert (ipcSocket w1 = ipcSocket w) as -> by (by injection F).
    by rewrite <- !app_assoc.
Qed.

End Effects.

(** ** The linker *)

Section Linker.
Context `{Host}.

Lemma sweep_lookup dir (fs : gmap string Node) p :
  sweep dir fs !! p = if inside dir p then None else fs !! p.
Proof.
  unfold sweep. destruct (inside dir p) eqn:Hin.
  - apply map_lookup_filter_None. right. intros n _. simpl. by rewrite Hin.
  - destruct (fs !! p) as [n|] eqn:Hp.
    + by apply map_lookup_filter_Some.
    + apply map_lookup_filter_None. by left.
Qed.

Lemma make_dir_lookup dir (fs : gmap string Node) p :
  make_dir dir fs !! p
  = if decide (dir = p) then Some (default Directory (fs !! dir)) else fs !! p.
Proof.
  unfold make_dir. destruct (fs !! dir) as [n|] eqn:Hd.
  - case_decide; by subst.
  - case_decide; subst.
    + by rewrite lookup_insert_eq.
    + by rewrite lookup_insert_ne.
Qed.


Lemma link_result_Some env links p n :
  link_result env links p (Some n) = Some n.
Proof.
  induction links as [|l links IH]; simpl; [done|]. by case_decide.
Qed.





End Linker.

(** ** The supervisor *)

Section Supervisor.
Context `{Host}.

Lemma fs_or_ipc_quiet e : fs_or_ipc e -> quiet e.
Proof. by destruct e. Qed.

Lemma quiet_broadcasts w w' :
  adds quiet w w' -> broadcasts (effects w') = broadcasts (effects w).
Proof. apply adds_omap. by intros [| [] | | | | | | | | |]. Qed.

Lemma quiet_invoked w w' :
  adds quiet w w' -> invoked (effects w') = invoked (effects w).
Proof. apply adds_omap. by intros [| [] | | | | | | | | |]. Qed.

Lemma quiet_launches w w' :
  adds quiet w w' -> launches (effects w') = launches (effects w).
Proof. apply adds_omap. by intros [| [] | | | | | | | | |]. Qed.

Lemma linkResources_adds env fxserverCwd resourcesPaths w :
  adds fs_or_ipc w (after (linkResources env fxserverCwd resourcesPaths) w).
Proof.
  unfold after.
  destruct (linkResources_cases env fxserverCwd resourcesPaths w)
    as [_ [(_ & _ & _ & E)|[(_ & _ & _ & _ & E)|(_ & _ & _ & _ & ds & A & E)]]];
    eexists; (split; [exact E|]).
  - by repeat constructor.
  - by repeat constructor.
  - repeat (apply Forall_cons; split; [done|]).
    apply Forall_app. split; [by eapply attempt_effects_fs_or_ipc|].
    destruct (ipcSocket w); by repeat constructor.
Qed.

Lemma linkResources_fields env fxserverCwd resourcesPaths w :
  fields (after (linkResources env fxserverCwd resourcesPaths) w) = fields w.
Proof. apply linkResources_cases. Qed.

Lemma mkdirp_spec env dir w :
  fields (after (mkdirp env dir) w) = fields w
  /\ effects (after (mkdirp env dir) w) = effects w ++ [Mkdirp dir]
  /\ (mkdirp env dir w).1
     = if mkdirp_fails env dir then Rejected (EFAIL "mkdir" dir)
       else Returned tt.
Proof. unfold after, mkdirp. by destruct (mkdirp_fails env dir). Qed.

Lemma fxserverArgs_fold (rs : list string) : forall acc : list string,
  fold_left (fun (args : list string) resourcePath =>
               args ++ ["+ensure"; basename resourcePath]) rs acc
  = acc ++ flat_map (fun r => ["+ensure"; basename r]) rs.
Proof.
  induction rs as [|r rs IH]; intros acc; simpl.
  - by rewrite app_nil_r.
  - rewrite IH. by rewrite <- app_assoc.
Qed.

(** [start], with the sequencing spelled out. *)
Lemma start_unfold env request w :
  let cwd := getProjectServerPath (projectPath request) in
  let rs := enabledResourcesPaths request in
  let w0 := toState booting
              (perform (Emit emit_clearOutput)
                 (perform (Log (log_starting (projectPath request) rs)) w)) in
  start env request w
  = match mkdirp env cwd w0 with
    | (Rejected e, w1) => (Rejected e, w1)
    | (Returned _, w1) =>
        match linkResources env cwd rs w1 with
        | (Rejected e, w2) => (Rejected e, w2)
        | (Returned _, w2) =>
            let w3 :=
              perform (ExecFile
                         (join (join serverContainer latestVersion)
                            "FXServer.exe")
                         (fxserverArgs rs) cwd) w2 in
            match execFile_returns env with
            | process pid =>
                (Returned tt,
                 set_currentEnabledResourcesPaths rs
                   (set_server (Some pid)
                      (set_children (children (setupIpc w3) ++ [pid])
                         (setupIpc w3))))
            | _ => (Returned tt, perform (Log log_failed_to_start) w3)
            end
        end
    end.
Proof.
  intros cwd rs w0. unfold start. fold cwd. fold rs. clearbody cwd rs.
  unfold bind at 1 2 3 4. unfold lift at 1 2 3. fold w0. clearbody w0.
  destruct (mkdirp env cwd w0) as [[[]|e1] w1]; [|done].
  unfold bind at 1.
  destruct (linkResources env cwd rs w1) as [[[]|e2] w2]; [|done].
  unfold bind at 1. unfold lift at 1.
  by destruct (execFile_returns env).
Qed.

(** [start] in full. The state is [booting] and broadcast once whatever
    happens next; the server is launched once the directories are there; the
    fields are assigned once [execFile] has returned a process with an output
    stream. *)
Lemma start_spec env request w :
  let cwd := getProjectServerPath (projectPath request) in
  let rs := enabledResourcesPaths request in
  let linked :=
    linkResources env cwd rs
      (after (mkdirp env cwd)
         (toState booting
            (perform (Emit emit_clearOutput)
               (perform (Log (log_starting (projectPath request) rs)) w)))) in
  let r := start env request w in
  broadcasts (effects r.2) = broadcasts (effects w) ++ [booting]
  /\ invoked (effects r.2) = invoked (effects w)
  /\ listeners r.2 = listeners w
  /\ next_handle w <= next_handle r.2
  /\ ((exists e, r.1 = Rejected e
       /\ (mkdirp_fails env cwd = true \/ linked.1 = Rejected e)
       /\ fields r.2 = fields (set_state booting w)
       /\ launches (effects r.2) = launches (effects w))
      \/ (r.1 = Returned tt
          /\ mkdirp_fails env cwd = false /\ linked.1 = Returned tt
          /\ launches (effects r.2) = launches (effects w) ++ [fxserverArgs rs]
          /\ match execFile_returns env with
             | process pid =>
                 fields r.2
                 = (booting, Some (next_handle w), ipcSocket w, Some pid, rs,
                    listeners w, S (next_handle w),
                    <[next_handle w := []]> (disposableHandlers w),
                    children w ++ [pid])
             | _ => fields r.2 = fields (set_state booting w)
             end)).
Proof.
  intros cwd rs linked r.
  pose proof (start_unfold env request w) as Hr. simpl in Hr.
  fold cwd rs r in Hr. subst linked. unfold after.
  set (w0 := toState booting _) in *.
  assert (broadcasts (effects w0) = broadcasts (effects w) ++ [booting]) as B0.
  { subst w0. by observe. }
  assert (invoked (effects w0) = invoked (effects w)) as I0.
  { subst w0. by observe. }
  assert (launches (effects w0) = launches (effects w)) as L0.
  { subst w0. by observe. }
  assert (fields w0 = fields (set_state booting w)) as F0 by reflexivity.
  clearbody w0 r cwd rs.
  destruct (mkdirp_spec env cwd w0) as (F1 & E1 & R1). unfold after in *.
  destruct (mkdirp env cwd w0) as [o1 w1]; simpl in *.
  assert (adds quiet w0 w1) as A1.
  { exists [Mkdirp cwd]. split; [done|]. by repeat constructor. }
  injection F0 as Fa Fb Fc Fd Fe Ff Fg Fh Fi.
  destruct (mkdirp_fails env cwd) eqn:Hm; subst o1 r; simpl.
  { rewrite (quiet_broadcasts _ _ A1), (quiet_invoked _ _ A1),
      (quiet_launches _ _ A1).
    injection F1 as Ga Gb Gc Gd Ge Gf Gg Gh Gi.
    repeat split; auto; try lia; try congruence.
    left. eexists. repeat split; eauto. unfold fields. simpl. congruence. }
  pose proof (adds_weaken _ _ _ _ fs_or_ipc_quiet
                (linkResources_adds env cwd rs w1)) as A2.
  pose proof (linkResources_fields env cwd rs w1) as F2. unfold after in *.
  destruct (linkResources env cwd rs w1) as [o2 w2]; simpl in *.
  pose proof (adds_trans _ _ _ _ A1 A2) as A.
  pose proof (quiet_broadcasts _ _ A) as Bw.
  pose proof (quiet_invoked _ _ A) as Iw.
  pose proof (quiet_launches _ _ A) as Lw.
  rewrite F1 in F2. clear A A1 A2 E1 F1.
  injection F2 as Ga Gb Gc Gd Ge Gf Gg Gh Gi.
  destruct o2 as [[]|e]; simpl.
  2:{ repeat split; auto; try lia; try congruence.
      left. exists e. repeat split; auto; try congruence.
      unfold fields. simpl. congruence. }
  destruct (execFile_returns env) as [|pid|pid]; simpl;
    unfold broadcasts, invoked, launches in *; rewrite ?omap_app; simpl;
    rewrite ?omap_app; simpl; rewrite ?app_nil_r;
    (repeat split; auto; try lia; try congruence; []); right;
    repeat split; auto; try congruence;
    unfold fields; simpl; congruence.
Qed.

(** C8: the argument list of the launch is the fixed list, which ends with
    the ensure of the bridge resource, followed by one [+ensure <basename>]
    pair per enabled resource in the order of the request; [start] launches
    the server at most once, with that list, and does launch it when the
    directories could be made. *)
Theorem start_launch_arguments (env : Env) (request : ServerStartRequest)
    (w : World) :
  let cwd := getProjectServerPath (projectPath request) in
  let dir := join cwd "resources" in
  let args :=
    [ "+exec"; "blank";
      "+endpoint_add_tcp"; "127.0.0.1:30120";
      "+endpoint_add_udp"; "127.0.0.1:30120";
      "+set"; "onesync"; "on";
      "+set"; "sv_maxclients"; "64";
      "+set"; "sv_lan"; "1";
      "+add_ace"; "resource.sdk-game"; "command"; "allow";
      "+ensure"; "sdk-game" ]
    ++ flat_map (fun resourcePath => ["+ensure"; basename resourcePath])
         (enabledResourcesPaths request) in
  let w' := after (start env request) w in
  fxserverArgs (enabledResourcesPaths request) = args
  /\ (launches (effects w') = launches (effects w)
      \/ launches (effects w') = launches (effects w) ++ [args])
  /\ (mkdirp_fails env cwd = false -> rimraf_fails env dir = false ->
      mkdirp_fails env dir = false ->
      launches (effects w') = launches (effects w) ++ [args]).
Proof.
  intros cwd dir args w'.
  assert (fxserverArgs (enabledResourcesPaths request) = args) as Hargs
    by apply fxserverArgs_fold.
  destruct (start_spec env request w)
    as (_ & _ & _ & _ & [(e & R & Hwhy & _ & L)|(R & _ & _ & L & _)]);
    fold cwd in Hwhy || idtac; unfold after in *; subst w'.
  - split; [done|]. split; [by left|]. intros Hc Hr Hm.
    destruct Hwhy as [Hwhy|Hwhy]; [congruence|].
    match type of Hwhy with (linkResources _ _ _ ?w0).1 = _ =>
      pose proof (linkResources_cases env cwd (enabledResourcesPaths request)
                    w0) as C
    end.
    cbv zeta in C. fold dir in C.
    destruct C as [_ [(? & _)|[(_ & ? & _)|(_ & _ & ? & _)]]]; congruence.
  - rewrite Hargs in L. split; [done|]. split; [by right|]. by intros.
Qed.

(** After a [start] that launched the server, the list of enabled resources
    is the one of the request. *)
Lemma start_assigns_list env request pid w :
  (start env request w).1 = Returned tt ->
  execFile_returns env = process pid ->
  currentEnabledResourcesPaths (after (start env request) w)
  = enabledResourcesPaths request.
Proof.
  intros R P. unfold after.
  destruct (start_spec env request w)
    as (_ & _ & _ & _ & [(e & R' & _)|(_ & _ & _ & _ & F)]); [congruence|].
  rewrite P in F. by injection F.
Qed.

(** [refreshResources], whatever its outcome, touches nothing but the files
    and the effects: the list of enabled resources stays as it was. *)
Lemma refreshResources_fields env request w :
  fields (after (refreshResources env request) w) = fields w.
Proof.
  unfold after, refreshResources.
  set (cwd := getProjectServerPath _). unfold bind at 1.
  destruct (mkdirp_spec env cwd w) as (F1 & _). unfold after in F1.
  destruct (mkdirp env cwd w) as [[[]|e] w1]; simpl in *; [|done].
  unfold bind.
  pose proof (linkResources_fields env cwd (enabledResourcesPaths request) w1)
    as F2. unfold after in F2.
  destruct (linkResources _ _ _ w1) as [[[]|e] w2]; simpl in *; [|congruence].
  unfold lift. simpl.
  destruct (sendIpcEvent_fields "refresh" None w2) as [F3 _]. congruence.
Qed.

Lemma forEach_sendIpcEvent eventType names : forall w,
  let w' := forEach (fun name => sendIpcEvent eventType (Some name)) names w in
  fields w' = fields w /\ files w' = files w
  /\ effects w'
     = effects w
       ++ flat_map (fun name => send_effects (ipcSocket w) eventType (Some name))
            names.
Proof.
  induction names as [|name names IH]; intros w; simpl.
  - by rewrite app_nil_r.
  - destruct (IH (sendIpcEvent eventType (Some name) w)) as (F & L & E).
    destruct (sendIpcEvent_fields eventType (Some name) w) as [F' L'].
    rewrite F, L, E, F', L', sendIpcEvent_effects.
    assert (ipcSocket (sendIpcEvent eventType (Some name) w) = ipcSocket w)
      as -> by (by injection F').
    by rewrite <- app_assoc.
Qed.

Lemma written_app es1 es2 : written (es1 ++ es2) = written es1 ++ written es2.
Proof. apply omap_app. Qed.

Lemma attempt_effects_written links ds :
  Forall2 attempt_effects links ds -> written (concat ds) = [].
Proof.
  induction 1 as [|l d links ds [->|[e ->]] _ IH]; simpl; auto.
Qed.

Lemma flat_map_over_map {A B C} (f : B -> list C) (g : A -> B) (l : list A) :
  flat_map f (map g l) = flat_map (fun x => f (g x)) l.
Proof. induction l as [|x l IH]; simpl; [done|]. by rewrite IH. Qed.

(** C4, as the code has it: a relink request does nothing at all unless the
    state is [up]. When it is [up] and the re-linking returned, the effects
    of the re-linking are followed by one restart directive for the basename
    of every entry of [currentEnabledResourcesPaths] that starts with the
    prefix of the request, in order, and by nothing else, provided the prefix
    is there and is not the empty string; without a prefix (none, or the
    empty string) no restart directive follows. *)
Theorem handleRelinkResources_restarts (env : Env)
    (request : RelinkResourcesRequest) (w : World) :
  let cwd := getProjectServerPath (relinkProjectPath request) in
  let linked := linkResources env cwd (resourcesPaths request) w in
  let r := handleRelinkResources env request w in
  (state w <> up -> r = (Returned tt, w))
  /\ (state w = up -> linked.1 = Returned tt ->
      forall prefix,
        restartResourcesWithPath request = Some prefix -> prefix <> "" ->
        let restarted :=
          filter (fun resourcePath => String.prefix prefix resourcePath = true)
            (currentEnabledResourcesPaths w) in
        r.1 = Returned tt
        /\ files r.2 = files linked.2
        /\ effects r.2
           = effects linked.2
             ++ flat_map (fun resourcePath =>
                            send_effects (ipcSocket w) "restart"
                              (Some (basename resourcePath)))
                  restarted
        /\ forall socket, ipcSocket w = Some socket ->
             written (effects r.2)
             = written (effects w) ++ (socket, "refresh", None)
               :: map (fun resourcePath =>
                         (socket, "restart", Some (basename resourcePath)))
                    restarted)
  /\ (state w = up -> truthy (restartResourcesWithPath request) = false ->
      r = linked).
Proof.
  intros cwd linked r. subst r. unfold handleRelinkResources. fold cwd.
  split; [|split].
  - intros Hs. by rewrite decide_True.
  - intros Hs Hl prefix Hp Hne.
    rewrite decide_False by (by rewrite Hs; intros []).
    rewrite Hp. assert (truthy (Some prefix) = true) as ->
      by (by destruct prefix).
    simpl. unfold bind, lift. fold linked. unfold startsWith.
    set (restarted := filter _ (currentEnabledResourcesPaths w)).
    clearbody restarted.
    pose proof (linkResources_cases env cwd (resourcesPaths request) w) as C.
    cbv zeta in C. fold linked in C. destruct C as [F C].
    destruct linked as [[[]|e] w1]; simpl in *; [|done].
    destruct (forEach_sendIpcEvent "restart" (map basename restarted) w1)
      as (_ & L' & E').
    assert (ipcSocket w1 = ipcSocket w) as Hs1 by (by injection F).
    rewrite Hs1, flat_map_over_map in E'.
    split; [done|]. split; [done|]. split; [done|].
    intros socket Hsock. rewrite E', Hsock.
    destruct C as [(_ & ? & _)|[(_ & _ & ? & _)|(_ & _ & _ & _ & ds & A & E)]];
      [done|done|].
    rewrite E, Hsock, !written_app.
    match goal with |- context [written (Rimraf ?a :: Mkdirp ?b :: ?x)] =>
      change (written (Rimraf a :: Mkdirp b :: x)) with (written x)
    end.
    rewrite !written_app, (attempt_effects_written _ _ A).
    simpl. rewrite <- app_assoc. simpl. do 2 f_equal.
    unfold written. clear.
    induction restarted as [|x xs IH]; simpl; [done|].
    f_equal. exact IH.
  - intros Hs Ht. rewrite decide_False by (by rewrite Hs; intros []).
    rewrite Ht. unfold bind, lift. fold linked.
    by destruct linked as [[[]|e] w1].
Qed.

End Supervisor.

(** ** The lifecycle *)

Section Lifecycle.
Context `{Host}.

Lemma idle_refl w : idle w w.
Proof. split; [done|apply adds_refl]. Qed.

Lemma idle_trans w1 w2 w3 : idle w1 w2 -> idle w2 w3 -> idle w1 w3.
Proof.
  intros [F1 A1] [F2 A2]. split; [congruence|by eapply adds_trans].
Qed.

Lemma idle_perform e w : quiet e -> idle w (perform e w).
Proof. intros. split; [done|by apply adds_perform]. Qed.

Lemma idle_sendIpcEvent eventType data w :
  idle w (sendIpcEvent eventType data w).
Proof.
  split; [apply sendIpcEvent_fields|].
  eapply adds_weaken; [apply fs_or_ipc_quiet|apply sendIpcEvent_adds].
Qed.

Lemma idle_stop w : idle w (stop w).
Proof.
  unfold stop. destruct (server w); [by apply idle_perform|apply idle_refl].
Qed.

Lemma idle_handleResourceRestart resourceName w :
  idle w (handleResourceRestart resourceName w).
Proof.
  unfold handleResourceRestart.
  eapply idle_trans; [|apply idle_sendIpcEvent]. by apply idle_perform.
Qed.

Lemma idle_linkResources env fxserverCwd resourcesPaths w :
  idle w (after (linkResources env fxserverCwd resourcesPaths) w).
Proof.
  split; [apply linkResources_fields|].
  eapply adds_weaken; [apply fs_or_ipc_quiet|apply linkResources_adds].
Qed.

Lemma idle_mkdirp env dir w : idle w (after (mkdirp env dir) w).
Proof.
  destruct (mkdirp_spec env dir w) as (F & E & _). split; [done|].
  exists [Mkdirp dir]. split; [done|]. by repeat constructor.
Qed.

Lemma idle_refreshResources env request w :
  idle w (after (refreshResources env request) w).
Proof.
  unfold refreshResources, after.
  set (cwd := getProjectServerPath _). unfold bind at 1.
  pose proof (idle_mkdirp env cwd w) as I1. unfold after in I1.
  destruct (mkdirp env cwd w) as [[[]|e] w1]; simpl in *; [|done].
  unfold bind.
  pose proof (idle_linkResources env cwd (enabledResourcesPaths request) w1)
    as I2. unfold after in I2.
  destruct (linkResources _ _ _ w1) as [[[]|e] w2]; simpl in *;
    [|by eapply idle_trans].
  unfold lift. simpl.
  eapply idle_trans; [|apply idle_sendIpcEvent]. by eapply idle_trans.
Qed.

Lemma idle_forEach_sendIpcEvent eventType names : forall w,
  idle w (forEach (fun name => sendIpcEvent eventType (Some name)) names w).
Proof.
  induction names as [|name names IH]; intros w; simpl; [apply idle_refl|].
  eapply idle_trans; [apply idle_sendIpcEvent|apply IH].
Qed.

Lemma idle_handleRelinkResources env request w :
  idle w (after (handleRelinkResources env request) w).
Proof.
  unfold handleRelinkResources, after.
  case_decide; [apply idle_refl|].
  set (cwd := getProjectServerPath _). set (names := if truthy _ then _ else _).
  clearbody names. unfold bind.
  pose proof (idle_linkResources env cwd (resourcesPaths request) w) as I.
  unfold after in I.
  destruct (linkResources _ _ _ w) as [[[]|e] w1]; simpl in *; [|done].
  unfold lift. simpl.
  eapply idle_trans; [exact I|apply idle_forEach_sendIpcEvent].
Qed.

Lemma idle_server_stdout_data data w : idle w (server_stdout_data data w).
Proof.
  unfold server_stdout_data.
  eapply idle_trans; by apply idle_perform.
Qed.

Lemma idle_calm w w' : idle w w' -> calm w w'.
Proof.
  intros [F A]. split; [by injection F|]. split; [by injection F|].
  exists 0. simpl. by rewrite (quiet_broadcasts _ _ A), app_nil_r.
Qed.

Lemma calm_refl w : calm w w.
Proof. apply idle_calm, idle_refl. Qed.

Lemma calm_trans w1 w2 w3 : calm w1 w2 -> calm w2 w3 -> calm w1 w3.
Proof.
  intros (S1 & C1 & k1 & B1) (S2 & C2 & k2 & B2).
  split; [congruence|]. split; [congruence|]. exists (k1 + k2).
  by rewrite B2, B1, S1, <- app_assoc, replicate_add.
Qed.

Lemma calm_ackState w : calm w (ackState w).
Proof.
  split; [done|]. split; [done|]. exists 1. unfold ackState. by observe.
Qed.

Lemma calm_client_on e c w : calm w (client_on e c w).2.
Proof.
  split; [done|]. split; [done|]. exists 0. simpl. by rewrite app_nil_r.
Qed.

Lemma calm_ipc_connection srv socket w : calm w (ipc_connection srv socket w).
Proof.
  split; [done|]. split; [done|]. exists 0. unfold ipc_connection.
  by observe.
Qed.

Lemma calm_forEach_dispose hs : forall w, calm w (forEach dispose hs w).
Proof.
  induction hs as [|h hs IH]; intros w; simpl; [apply calm_refl|].
  eapply calm_trans; [|apply IH].
  split; [done|]. split; [done|]. exists 0. simpl. by rewrite app_nil_r.
Qed.

Lemma calm_ipc_close srv w : calm w (ipc_close srv w).
Proof.
  unfold ipc_close. eapply calm_trans; [|apply calm_forEach_dispose].
  split; [done|]. split; [done|]. exists 0. simpl. by rewrite app_nil_r.
Qed.

(** A listener run on anything but a start request. *)
Lemma calm_call env c m w :
  match m with msg_start _ => False | _ => True end ->
  calm w (call env c m w).
Proof.
  intros Hm.
  destruct c, m; simpl; try done;
    first [ apply calm_refl | apply calm_ackState
          | apply idle_calm;
            first [ apply idle_stop | apply idle_handleResourceRestart
                  | apply idle_refreshResources | apply idle_sendIpcEvent ] ].
Qed.

Lemma calm_client_receives env m w :
  match m with msg_start _ => False | _ => True end ->
  calm w (client_receives env m w).
Proof.
  intros Hm. unfold client_receives.
  generalize (filter (fun l => listens_to l = event_of m) (listeners w)).
  intros ls. revert w.
  induction ls as [|l ls IH]; intros w; simpl; [apply calm_refl|].
  eapply calm_trans; [|apply IH].
  eapply calm_trans; [|by apply calm_call].
  split; [done|]. split; [done|]. exists 0. by observe.
Qed.

Lemma ready_not_state type :
  is_string type "ready" = true -> is_string type "state" = false.
Proof.
  destruct type as [[]|]; simpl; try done.
  intros Hr. apply String.eqb_eq in Hr. by subst.
Qed.

Lemma ipc_data_ready line w :
  ready_line line = true ->
  ipc_data line w = toState up w.
Proof.
  unfold ready_line, ipc_data, after, try_catch.
  destruct line as [value|]; [|done].
  destruct (destructure value) as [[type data]|e]; [|done].
  intros Hr. by rewrite (ready_not_state _ Hr), Hr.
Qed.

Lemma ipc_data_other line w :
  ready_line line = false -> idle w (ipc_data line w).
Proof.
  unfold ready_line, ipc_data, after, try_catch.
  destruct line as [value|]; [|intros; by apply idle_perform].
  destruct (destructure value) as [[type data]|e];
    [|intros; by apply idle_perform].
  intros ->. destruct (is_string type "state"); simpl;
    [by apply idle_perform|apply idle_refl].
Qed.

(** One turn of the event loop between a start and the exit: a ready line
    sets and broadcasts [up]; any other event leaves the state alone. *)
Lemma step_between e w :
  between e ->
  children (step e w) = children w
  /\ if announces_ready e
     then state (step e w) = up
          /\ broadcasts (effects (step e w)) = broadcasts (effects w) ++ [up]
     else calm w (step e w).
Proof.
  intros Hb. destruct e as [env m| env request | name | | srv socket | socket
                           | line | srv | pid data | pid]; simpl in *.
  - assert (calm w (client_receives env m w)) as C
      by (apply calm_client_receives; by destruct m).
    split; [apply C|done].
  - pose proof (idle_calm _ _ (idle_handleRelinkResources env request w)) as C.
    split; [apply C|done].
  - pose proof (idle_calm _ _ (idle_handleResourceRestart name w)) as C.
    split; [apply C|done].
  - pose proof (idle_calm _ _ (idle_stop w)) as C. split; [apply C|done].
  - case_decide; [|split; [done|apply calm_refl]].
    pose proof (calm_ipc_connection srv socket w) as C. split; [apply C|done].
  - split; [done|apply calm_refl].
  - destruct (ready_line line) eqn:Hr.
    + rewrite (ipc_data_ready _ _ Hr). split; [done|]. split; [done|].
      unfold toState, ackState. by observe.
    + pose proof (idle_calm _ _ (ipc_data_other line w Hr)) as C.
      split; [apply C|done].
  - case_decide; [|split; [done|apply calm_refl]].
    pose proof (calm_ipc_close srv w) as C. split; [apply C|done].
  - case_decide; [|split; [done|apply calm_refl]].
    pose proof (idle_calm _ _ (idle_server_stdout_data data w)) as C.
    split; [apply C|done].
  - done.
Qed.

Lemma forEach_app {A} (f : A -> World -> World) l1 l2 w :
  forEach f (l1 ++ l2) w = forEach f l2 (forEach f l1 w).
Proof. revert w. induction l1 as [|x l1 IH]; intros w; simpl; auto. Qed.

Lemma run_app es1 es2 w : run (es1 ++ es2) w = run es2 (run es1 w).
Proof. apply forEach_app. Qed.

Lemma run_between seen pid es : forall w n m,
  phase seen pid n m w -> Forall between es ->
  exists n' m',
    phase seen pid n' m' (run es w)
    /\ (m' = 0 <-> m = 0 /\ Forall (fun e => announces_ready e = false) es).
Proof.
  induction es as [|e es IH]; intros w n m (Hc & Hb & Hs) Hes.
  - exists n, m. split; [done|]. split; [by intros ->|by intros [-> _]].
  - apply Forall_cons in Hes as [He Hes].
    destruct (step_between e w He) as [Hc' Hstep].
    destruct (announces_ready e) eqn:Hr.
    + destruct Hstep as [Hs' Hb'].
      destruct (IH (step e w) n (S m)) as (n' & m' & P & Hm'); [|done|].
      { split; [by rewrite Hc'|]. split; [|done].
        rewrite Hb', Hb, <- !app_assoc. do 2 f_equal.
        change [up] with (replicate 1 up).
        by rewrite <- replicate_add, Nat.add_comm. }
      exists n', m'. split; [done|]. split.
      * intros Hz. apply Hm' in Hz as [? _]. lia.
      * intros [_ Hall]. apply Forall_cons in Hall as [? _]. congruence.
    + destruct Hstep as (Hs' & _ & k & Hb').
      destruct m as [|m].
      * destruct (IH (step e w) (n + k) 0) as (n' & m' & P & Hm');
          [|done|].
        { split; [by rewrite Hc'|]. split; [|by rewrite Hs'].
          rewrite Hb', Hb, Hs. simpl. rewrite app_nil_r, <- app_assoc.
          f_equal. by rewrite app_nil_r, replicate_add. }
        exists n', m'. split; [done|]. rewrite Hm'. split.
        -- intros [_ Hall]. split; [done|]. by constructor.
        -- intros [_ Hall]. apply Forall_cons in Hall as [_ Hall]. done.
      * destruct (IH (step e w) n (S m + k)) as (n' & m' & P & Hm');
          [|done|].
        { split; [by rewrite Hc'|]. split; [|by rewrite Hs'].
          rewrite Hb', Hb, Hs, <- !app_assoc. do 2 f_equal.
          by rewrite replicate_add. }
        exists n', m'. split; [done|]. split.
        -- intros Hz. apply Hm' in Hz as [? _]. lia.
        -- intros [? _]. lia.
Qed.

Lemma server_exit_spec w :
  state (server_exit w) = down
  /\ broadcasts (effects (server_exit w)) = broadcasts (effects w) ++ [down].
Proof.
  unfold server_exit, toState, ackState. destruct (ipcServer w); by observe.
Qed.

(** C1, as the code has it: from a [start] that launched the server to the
    exit of that process, with no other start and no other exit in between,
    the broadcasts are [booting] (once, and once more per state request),
    then [up] as often as it was announced or requested, then [down]; [up]
    is missing exactly when no ready line came in. *)
Theorem start_until_exit (env : Env) (request : ServerStartRequest)
    (pid : nat) (es : list Event) (w : World) :
  (start env request w).1 = Returned tt ->
  execFile_returns env = process pid ->
  Forall between es ->
  let w' := run (es ++ [ServerExits pid]) (after (start env request) w) in
  exists n m,
    broadcasts (effects w')
    = broadcasts (effects w)
      ++ replicate (S n) booting ++ replicate m up ++ [down]
    /\ state w' = down
    /\ (m = 0 <-> Forall (fun e => announces_ready e = false) es).
Proof.
  intros R P Hes w'. subst w'. unfold after.
  destruct (start_spec env request w)
    as (B & _ & _ & _ & [(e & R' & _)|(_ & _ & _ & _ & F)]); [congruence|].
  rewrite P in F. injection F as Fa Fb Fc Fd Fe Ff Fg Fh Fi.
  destruct (run_between (broadcasts (effects w)) pid es (start env request w).2
              0 0) as (n & m & (Hc & Hb & Hs) & Hm); [|done|].
  { split; [rewrite Fi; set_solver|]. split; [|done].
    simpl. by rewrite B. }
  exists n, m. rewrite run_app.
  set (w1 := run es _) in *. clearbody w1.
  unfold run. cbn [forEach step].
  rewrite decide_True by done.
  match goal with |- context [server_exit ?w2] =>
    destruct (server_exit_spec w2) as [Hd Hbd] end.
  split; [|split].
  - rewrite Hbd. simpl. by rewrite Hb, <- !app_assoc.
  - done.
  - rewrite Hm. split; [by intros [_ ?]|by intros].
Qed.

End Lifecycle.

(** ** Listeners of the client bus *)

Section Handlers.
Context `{Host}.

Lemma neutral_refl w : neutral [] w w.
Proof.
  repeat split; auto. by rewrite app_nil_r.
Qed.

Lemma neutral_trans r1 r2 w1 w2 w3 :
  neutral r1 w1 w2 -> neutral r2 w2 w3 -> neutral (r1 ++ r2) w1 w3.
Proof.
  intros (L1 & N1 & D1 & K1 & I1) (L2 & N2 & D2 & K2 & I2).
  split; [congruence|]. split; [lia|]. split; [|split].
  - intros s Hs. rewrite D2 by lia. by apply D1.
  - intros s Hs. destruct (K2 s Hs) as [Hs'|Hs']; [|right; lia].
    destruct (K1 s Hs') as [?|?]; [by left|right; lia].
  - by rewrite I2, I1, app_assoc.
Qed.

Lemma neutral_fields w w' :
  fields w' = fields w -> invoked (effects w') = invoked (effects w) ->
  neutral [] w w'.
Proof.
  intros F I. injection F as Fa Fb Fc Fd Fe Ff Fg Fh Fi.
  split; [done|]. split; [lia|]. split; [by rewrite Fh|].
  split; [rewrite Fh; by left|]. by rewrite I, app_nil_r.
Qed.

Lemma neutral_idle w w' : idle w w' -> neutral [] w w'.
Proof. intros [F A]. apply neutral_fields; [done|by apply quiet_invoked]. Qed.

Lemma neutral_ackState w : neutral [] w (ackState w).
Proof. repeat split; auto. unfold ackState. by observe. Qed.

Lemma neutral_toState s w : neutral [] w (toState s w).
Proof. repeat split; auto. unfold toState, ackState. by observe. Qed.

Lemma neutral_server_exit c w :
  neutral [] w (server_exit (set_children c w)).
Proof.
  unfold server_exit, toState, ackState.
  destruct (ipcServer _); repeat split; auto; by observe.
Qed.

Lemma neutral_start env request w :
  neutral [] w (after (start env request) w).
Proof.
  unfold after.
  destruct (start_spec env request w)
    as (_ & I & L & N & [(e & _ & _ & F & _)|(_ & _ & _ & _ & F)]).
  - injection F as Fa Fb Fc Fd Fe Ff Fg Fh Fi.
    split; [done|]. split; [lia|]. split; [by rewrite Fh|].
    split; [rewrite Fh; by left|]. by rewrite I, app_nil_r.
  - split; [done|]. split; [lia|].
    destruct (execFile_returns env);
      injection F as Fa Fb Fc Fd Fe Ff Fg Fh Fi;
      (split; [|split; [|by rewrite I, app_nil_r]]); rewrite Fh.
    + done.
    + by left.
    + done.
    + by left.
    + intros s Hs. rewrite lookup_insert_ne by lia. done.
    + intros s Hs. destruct (decide (next_handle w = s)) as [<-|Hne].
      * right. lia.
      * left. by rewrite lookup_insert_ne in Hs.
Qed.

Lemma neutral_call env c m w : neutral [] w (call env c m w).
Proof.
  destruct c, m; simpl;
    first [ apply neutral_refl | apply neutral_ackState
          | apply neutral_start
          | apply neutral_idle;
            first [ apply idle_stop | apply idle_handleResourceRestart
                  | apply idle_refreshResources | apply idle_sendIpcEvent ] ].
Qed.

Lemma neutral_invoke h w : neutral [h] w (perform (Invoke h) w).
Proof. repeat split; auto. by observe. Qed.

Lemma neutral_forEach_call env m ls : forall w,
  neutral (handle <$> ls) w
    (forEach (fun l w => call env (closure l) m (perform (Invoke (handle l)) w))
       ls w).
Proof.
  induction ls as [|l ls IH]; intros w; [apply neutral_refl|].
  cbn [forEach]. rewrite fmap_cons.
  apply (neutral_trans [handle l] (handle <$> ls) w
           (call env (closure l) m (perform (Invoke (handle l)) w)));
    [|apply IH].
  apply (neutral_trans [handle l] [] w (perform (Invoke (handle l)) w));
    [apply neutral_invoke|apply neutral_call].
Qed.

(** The bus runs listeners it holds, and no others. *)
Lemma neutral_client_receives env m w :
  exists ran, neutral ran w (client_receives env m w)
              /\ forall h, h ∈ ran -> h ∈ handles w.
Proof.
  unfold client_receives. eexists. split; [apply neutral_forEach_call|].
  intros h Hh. apply list_elem_of_fmap in Hh as (l & -> & Hl).
  apply list_elem_of_filter in Hl as [_ Hl].
  unfold handles. apply list_elem_of_fmap. eauto.
Qed.

Lemma ipc_data_neutral line w : neutral [] w (ipc_data line w).
Proof.
  destruct (ready_line line) eqn:Hr.
  - rewrite (ipc_data_ready _ _ Hr). apply neutral_toState.
  - apply neutral_idle. by apply ipc_data_other.
Qed.

(** What an accepted connection does to the bus. *)
Lemma ipc_connection_spec srv socket w :
  let n := next_handle w in
  let w' := ipc_connection srv socket w in
  ipcSocket w' = Some socket
  /\ listeners w'
     = listeners w
       ++ [Build_Listener n ev_ackResourcesState conn_ackResourcesState;
           Build_Listener (S n) ev_restartResource conn_restartResource;
           Build_Listener (S (S n)) ev_stopResource conn_stopResource;
           Build_Listener (S (S (S n))) ev_startResource conn_startResource]
  /\ next_handle w' = S (S (S (S n)))
  /\ disposableHandlers w'
     = <[srv := default [] (disposableHandlers w !! srv)
                ++ [n; S n; S (S n); S (S (S n))]]> (disposableHandlers w)
  /\ invoked (effects w') = invoked (effects w).
Proof.
  simpl. repeat split.
  - by rewrite <- !app_assoc.
  - unfold ipc_connection. by observe.
Qed.

Lemma filter_all {A} (P : A -> Prop) `{forall x, Decision (P x)} (l : list A) :
  (forall x, P x) -> filter P l = l.
Proof.
  intros HP. induction l as [|x l IH]; [done|].
  by rewrite filter_cons_True, IH.
Qed.

Lemma forEach_dispose hs : forall w,
  let w' := forEach dispose hs w in
  listeners w' = filter (fun l => handle l ∉ hs) (listeners w)
  /\ next_handle w' = next_handle w
  /\ disposableHandlers w' = disposableHandlers w
  /\ ipcSocket w' = ipcSocket w /\ ipcServer w' = ipcServer w
  /\ effects w' = effects w.
Proof.
  induction hs as [|h hs IH]; intros w; simpl.
  - repeat split; auto. symmetry. apply filter_all.
    intros l. apply not_elem_of_nil.
  - destruct (IH (dispose h w)) as (L & N & D & S1 & S2 & E).
    rewrite L, N, D, S1, S2, E. repeat split; auto. simpl.
    rewrite list_filter_filter. apply list_filter_iff.
    intros l. rewrite not_elem_of_cons. tauto.
Qed.

(** What the close of an IPC server does to the bus. *)
Lemma ipc_close_spec srv w :
  let d := default [] (disposableHandlers w !! srv) in
  let w' := ipc_close srv w in
  ipcSocket w' = None /\ ipcServer w' = None
  /\ listeners w' = filter (fun l => handle l ∉ d) (listeners w)
  /\ next_handle w' = next_handle w
  /\ disposableHandlers w' = <[srv := []]> (disposableHandlers w)
  /\ effects w' = effects w.
Proof.
  intros d w'. subst w'. unfold ipc_close. simpl. fold d.
  match goal with |- context [forEach dispose d ?w0] =>
    destruct (forEach_dispose d w0) as (L & N & D & S1 & S2 & E) end.
  by rewrite L, N, D, S1, S2, E.
Qed.

(** Every turn of the event loop is of one of three kinds. *)
Lemma step_cases e w :
  (exists ran, neutral ran w (step e w) /\ forall h, h ∈ ran -> h ∈ handles w)
  \/ (exists srv socket, is_Some (disposableHandlers w !! srv)
                         /\ step e w = ipc_connection srv socket w)
  \/ (exists srv, is_Some (disposableHandlers w !! srv)
                  /\ step e w = ipc_close srv w).
Proof.
  assert (forall w', neutral [] w w' ->
            exists ran, neutral ran w w'
                        /\ forall h, h ∈ ran -> h ∈ handles w)
    as Hn.
  { intros w' N. exists []. split; [done|]. intros h Hh.
    by apply elem_of_nil in Hh. }
  destruct e as [env m| env request | name | | srv socket | socket
                | line | srv | pid data | pid]; simpl.
  - left. apply neutral_client_receives.
  - left. apply Hn, neutral_idle, idle_handleRelinkResources.
  - left. apply Hn, neutral_idle, idle_handleResourceRestart.
  - left. apply Hn, neutral_idle, idle_stop.
  - case_decide; [right; left; eauto|left; apply Hn, neutral_refl].
  - left. apply Hn, neutral_refl.
  - left. apply Hn, ipc_data_neutral.
  - case_decide; [right; right; eauto|left; apply Hn, neutral_refl].
  - case_decide; [|left; apply Hn, neutral_refl].
    left. apply Hn, neutral_idle, idle_server_stdout_data.
  - case_decide; [|left; apply Hn, neutral_refl].
    left. apply Hn, neutral_server_exit.
Qed.

Lemma tidy_constructor fs : tidy (constructor fs).
Proof.
  split.
  - intros h Hh. unfold handles in Hh. simpl in Hh.
    repeat (apply elem_of_cons in Hh as [->|Hh]; [simpl; lia|]).
    by apply elem_of_nil in Hh.
  - intros s [d Hs]. simpl in Hs. by rewrite lookup_empty in Hs.
Qed.

Lemma handles_ipc_connection srv socket w h :
  h ∈ handles (ipc_connection srv socket w)
  <-> h ∈ handles w
      \/ next_handle w <= h < next_handle w + 4.
Proof.
  destruct (ipc_connection_spec srv socket w) as (_ & L & _).
  unfold handles. rewrite L, fmap_app, elem_of_app. simpl.
  rewrite !elem_of_cons, elem_of_nil.
  split; (intros [?|?]; [by left|right; lia]).
Qed.

Lemma handles_ipc_close srv w h :
  h ∈ handles (ipc_close srv w)
  <-> h ∈ handles w /\ h ∉ default [] (disposableHandlers w !! srv).
Proof.
  destruct (ipc_close_spec srv w) as (_ & _ & L & _).
  unfold handles. rewrite L, !list_elem_of_fmap. split.
  - intros (l & -> & Hl). apply list_elem_of_filter in Hl as [Hn Hl].
    split; [eauto|done].
  - intros [(l & -> & Hl) Hn]. exists l. split; [done|].
    by apply list_elem_of_filter.
Qed.

Lemma step_tidy e w : tidy w -> tidy (step e w).
Proof.
  intros [T1 T2].
  destruct (step_cases e w)
    as [(ran & (L & N & D & K & _) & _)
       |[(srv & socket & Hs & ->)|(srv & Hs & ->)]].
  - split.
    + intros h Hh. unfold handles in Hh. rewrite L in Hh.
      apply T1 in Hh. lia.
    + intros s Hk. destruct (K s Hk) as [Hk'|?]; [|lia].
      apply T2 in Hk'. lia.
  - destruct (ipc_connection_spec srv socket w) as (_ & _ & N & D & _).
    split.
    + intros h Hh. apply handles_ipc_connection in Hh as [Hh|?]; [|lia].
      apply T1 in Hh. lia.
    + intros s Hk. rewrite D in Hk. rewrite N.
      destruct (decide (srv = s)) as [<-|Hne].
      * apply T2 in Hs. lia.
      * rewrite lookup_insert_ne in Hk by done. apply T2 in Hk. lia.
  - destruct (ipc_close_spec srv w) as (_ & _ & _ & N & D & _). split.
    + intros h Hh. apply handles_ipc_close in Hh as [Hh _]. rewrite N. auto.
    + intros s Hk. rewrite D in Hk. rewrite N.
      destruct (decide (srv = s)) as [<-|Hne]; [auto|].
      rewrite lookup_insert_ne in Hk by done. auto.
Qed.

Lemma run_tidy es : forall w, tidy w -> tidy (run es w).
Proof.
  induction es as [|e es IH]; intros w T; simpl; [done|].
  by apply IH, step_tidy.
Qed.

(** A released listener stays released and is not run. *)
Lemma step_gone h e w :
  gone h w ->
  gone h (step e w)
  /\ exists ran, invoked (effects (step e w)) = invoked (effects w) ++ ran
                 /\ h ∉ ran.
Proof.
  intros (T & Hlt & Hout).
  pose proof (step_tidy e w T) as T'.
  destruct (step_cases e w)
    as [(ran & (L & N & D & K & I) & Hran)
       |[(srv & socket & Hs & E)|(srv & Hs & E)]].
  - split; [split; [done|split; [lia|]]|].
    + unfold handles. by rewrite L.
    + exists ran. split; [done|]. intros Hh. by apply Hout, Hran.
  - rewrite E in *.
    destruct (ipc_connection_spec srv socket w) as (_ & _ & N & _ & I).
    split; [split; [done|split; [lia|]]|].
    + rewrite handles_ipc_connection. intros [?|?]; [done|lia].
    + exists []. rewrite app_nil_r. split; [done|apply not_elem_of_nil].
  - rewrite E in *.
    destruct (ipc_close_spec srv w) as (_ & _ & _ & N & _ & Ef).
    split; [split; [done|split; [lia|]]|].
    + rewrite handles_ipc_close. by intros [? _].
    + exists []. rewrite Ef, app_nil_r. split; [done|apply not_elem_of_nil].
Qed.

Lemma run_gone h es : forall w,
  gone h w ->
  gone h (run es w)
  /\ exists ran, invoked (effects (run es w)) = invoked (effects w) ++ ran
                 /\ h ∉ ran.
Proof.
  induction es as [|e es IH]; intros w G.
  - split; [done|]. exists []. rewrite app_nil_r.
    split; [done|apply not_elem_of_nil].
  - change (run (e :: es) w) with (run es (step e w)).
    destruct (step_gone h e w G) as (G' & r1 & I1 & H1).
    destruct (IH _ G') as (G'' & r2 & I2 & H2).
    split; [done|]. exists (r1 ++ r2). rewrite I2, I1, app_assoc.
    split; [done|]. rewrite elem_of_app. tauto.
Qed.

(** A listener in the [disposableHandlers] of a server stays there until the
    server closes. *)
Lemma step_held h srv e w : held h srv w -> held h srv (step e w).
Proof.
  intros (T & Hlt & d & Hd & Hin).
  pose proof (step_tidy e w T) as T'.
  assert (srv < next_handle w) as Hsrv by (apply T; eauto).
  destruct (step_cases e w)
    as [(ran & (L & N & D & K & I) & Hran)
       |[(srv' & socket & Hs & E)|(srv' & Hs & E)]].
  - split; [done|]. split; [lia|]. exists d. rewrite D by done.
    split; [done|]. unfold handles. by rewrite L.
  - rewrite E in *.
    destruct (ipc_connection_spec srv' socket w) as (_ & _ & N & D & _).
    split; [done|]. split; [lia|]. rewrite D.
    destruct (decide (srv' = srv)) as [->|Hne].
    + rewrite lookup_insert_eq, Hd. simpl. eexists. split; [done|].
      rewrite elem_of_app, handles_ipc_connection.
      destruct Hin as [?|?]; [by left; left|right]. intros [?|?]; [done|lia].
    + rewrite lookup_insert_ne by done. exists d. split; [done|].
      rewrite handles_ipc_connection.
      destruct Hin as [?|?]; [by left|right]. intros [?|?]; [done|lia].
  - rewrite E in *.
    destruct (ipc_close_spec srv' w) as (_ & _ & _ & N & D & _).
    split; [done|]. split; [lia|]. rewrite D.
    destruct (decide (srv' = srv)) as [->|Hne].
    + rewrite lookup_insert_eq. eexists. split; [done|]. right.
      rewrite handles_ipc_close, Hd. simpl. tauto.
    + rewrite lookup_insert_ne by done. exists d. split; [done|].
      destruct Hin as [?|?]; [by left|right].
      rewrite handles_ipc_close. tauto.
Qed.

Lemma run_held h srv es : forall w, held h srv w -> held h srv (run es w).
Proof.
  induction es as [|e es IH]; intros w Hh; simpl; [done|].
  by apply IH, step_held.
Qed.

(** C3, as the code has it: the listeners an IPC connection registers stay on
    the client bus until the IPC server that accepted the connection closes;
    that close clears the peer and the server references and releases them,
    and none of them is run from then on. *)
Theorem ipc_close_releases (fs : gmap string Node) (es0 : list Event)
    (srv socket : nat) (es1 es2 : list Event) (h : nat) :
  let w0 := run es0 (constructor fs) in
  let w1 := step (IpcConnection srv socket) w0 in
  let w2 := run (es1 ++ [IpcServerCloses srv]) w1 in
  is_Some (disposableHandlers w0 !! srv) ->
  next_handle w0 <= h < next_handle w0 + 4 ->
  h ∈ handles w1
  /\ ipcSocket w2 = None /\ ipcServer w2 = None
  /\ (h ∉ handles w2)
  /\ exists ran, invoked (effects (run es2 w2)) = invoked (effects w2) ++ ran
                 /\ h ∉ ran.
Proof.
  intros w0 w1 w2 Hs Hh.
  assert (tidy w0) as T0 by (apply run_tidy, tidy_constructor).
  assert (w1 = ipc_connection srv socket w0) as E1.
  { subst w1. simpl. by rewrite decide_True. }
  assert (held h srv w1) as H1.
  { split; [by apply step_tidy|].
    destruct (ipc_connection_spec srv socket w0) as (_ & _ & N & D & _).
    rewrite E1. split; [lia|]. rewrite D, lookup_insert_eq.
    eexists. split; [done|]. left. rewrite elem_of_app. right.
    rewrite !elem_of_cons. lia. }
  split; [rewrite E1; apply handles_ipc_connection; by right|].
  subst w2. rewrite run_app. set (w := run es1 w1).
  pose proof (run_held h srv es1 w1 H1) as (T & Hlt & d & Hd & Hin).
  fold w in T, Hlt, Hd, Hin.
  assert (run [IpcServerCloses srv] w = ipc_close srv w) as E2.
  { unfold run. cbn [forEach step]. rewrite decide_True; eauto. }
  rewrite E2.
  destruct (ipc_close_spec srv w) as (S1 & S2 & _ & N & _).
  assert (gone h (ipc_close srv w)) as G.
  { split; [rewrite <- E2; by apply run_tidy|]. split; [lia|].
    rewrite handles_ipc_close, Hd. simpl. tauto. }
  split; [done|]. split; [done|]. split; [apply G|].
  by apply run_gone.
Qed.

End Handlers.

(** ** Invariants of the reachable worlds *)

(** ** Invariants of the event loop *)

Section Invariant.
Context `{Host}.
Variable I : World -> Prop.
Hypothesis I_still : forall w w',
  fields w' = fields w ->
  broadcasts (effects w') = broadcasts (effects w) -> I w -> I w'.
Hypothesis I_ackState : forall w, I w -> I (ackState w).
Hypothesis I_start : forall env request w,
  I w -> I (after (start env request) w).
Hypothesis I_connection : forall srv socket w,
  is_Some (disposableHandlers w !! srv) ->
  I w -> I (ipc_connection srv socket w).
Hypothesis I_close : forall srv w,
  is_Some (disposableHandlers w !! srv) -> I w -> I (ipc_close srv w).
Hypothesis I_ready : forall w, I w -> I (toState up w).
Hypothesis I_exit : forall pid w,
  pid ∈ children w ->
  I w ->
  I (server_exit (set_children (filter (fun p => p <> pid) (children w)) w)).

Lemma invariant_idle w w' : idle w w' -> I w -> I w'.
Proof.
  intros [F A]. apply I_still; [done|]. by apply quiet_broadcasts.
Qed.

Lemma invariant_call env c m w : I w -> I (call env c m w).
Proof.
  intros Hw.
  destruct c, m; simpl;
    first [ assumption | by apply I_ackState | by apply I_start
          | apply (invariant_idle w); [|assumption];
            first [ apply idle_stop | apply idle_handleResourceRestart
                  | apply idle_refreshResources | apply idle_sendIpcEvent ] ].
Qed.

Lemma invariant_client_receives env m w :
  I w -> I (client_receives env m w).
Proof.
  unfold client_receives.
  generalize (filter (fun l => listens_to l = event_of m) (listeners w)).
  intros ls. revert w.
  induction ls as [|l ls IH]; intros w Hw; simpl; [done|].
  apply IH, invariant_call. apply (I_still w); [done| |done]. by observe.
Qed.

(** What holds before a turn of the event loop holds after it, once it is
    kept by the few things a turn can do. *)
Lemma invariant_step e w : I w -> I (step e w).
Proof.
  intros Hw.
  destruct e as [env m| env request | name | | srv socket | socket
                | line | srv | pid data | pid]; simpl.
  - by apply invariant_client_receives.
  - apply (invariant_idle w); [apply idle_handleRelinkResources|done].
  - apply (invariant_idle w); [apply idle_handleResourceRestart|done].
  - apply (invariant_idle w); [apply idle_stop|done].
  - case_decide; [by apply I_connection|done].
  - done.
  - destruct (ready_line line) eqn:Hr.
    + rewrite (ipc_data_ready _ _ Hr). by apply I_ready.
    + apply (invariant_idle w); [by apply ipc_data_other|done].
  - case_decide; [by apply I_close|done].
  - case_decide; [|done].
    apply (invariant_idle w); [apply idle_server_stdout_data|done].
  - case_decide; [by apply I_exit|done].
Qed.

Lemma invariant_run es : forall w, I w -> I (run es w).
Proof.
  induction es as [|e es IH]; intros w Hw; [done|].
  change (run (e :: es) w) with (run es (step e w)).
  by apply IH, invariant_step.
Qed.

End Invariant.

Section Reachable.
Context `{Host}.

Lemma filter_Forall_all {A} (P : A -> Prop) `{forall x, Decision (P x)}
    (l : list A) :
  Forall P l -> filter P l = l.
Proof.
  induction 1 as [|x l Hx _ IH]; [done|]. by rewrite filter_cons_True, IH.
Qed.

Lemma Forall_filter_keep {A} (P Q : A -> Prop) `{forall x, Decision (Q x)}
    (l : list A) :
  Forall P l -> Forall P (filter Q l).
Proof.
  rewrite !Forall_forall. intros HP x Hx.
  apply list_elem_of_filter in Hx as [_ Hx]. auto.
Qed.

Lemma forEach_dispose_process hs : forall w,
  server (forEach dispose hs w) = server w
  /\ children (forEach dispose hs w) = children w.
Proof.
  induction hs as [|h hs IH]; intros w; simpl; [done|].
  by destruct (IH (dispose h w)) as [-> ->].
Qed.

Lemma server_exit_bus c w :
  let w' := server_exit (set_children c w) in
  listeners w' = listeners w /\ next_handle w' = next_handle w
  /\ disposableHandlers w' = disposableHandlers w
  /\ server w' = None /\ children w' = c
  /\ ipcSocket w' = ipcSocket w /\ ipcServer w' = ipcServer w.
Proof.
  unfold server_exit. simpl.
  destruct (ipcServer w) eqn:E; simpl; rewrite ?E; repeat split; done.
Qed.

(** The bus of a world after a start: the listeners stay, and the one
    [disposableHandlers] that may be new is empty. *)
Lemma start_bus env request w :
  let w' := after (start env request) w in
  listeners w' = listeners w
  /\ next_handle w <= next_handle w'
  /\ (forall srv d, disposableHandlers w' !! srv = Some d ->
        disposableHandlers w !! srv = Some d \/ d = []).
Proof.
  unfold after.
  destruct (start_spec env request w)
    as (_ & _ & L & N & [(e & _ & _ & F & _)|(_ & _ & _ & _ & F)]).
  - injection F as Fa Fb Fc Fd Fe Ff Fg Fh Fi.
    split; [done|]. split; [done|]. rewrite Fh. by left.
  - split; [done|]. split; [done|].
    destruct (execFile_returns env);
      injection F as Fa Fb Fc Fd Fe Ff Fg Fh Fi; rewrite Fh;
      intros srv d Hd; try (by left).
    destruct (decide (next_handle w = srv)) as [<-|Hne].
    + rewrite lookup_insert_eq in Hd. right. congruence.
    + rewrite lookup_insert_ne in Hd by done. by left.
Qed.

Lemma rooted_bus w w' :
  listeners w' = listeners w ->
  next_handle w <= next_handle w' ->
  (forall srv d, disposableHandlers w' !! srv = Some d ->
     disposableHandlers w !! srv = Some d \/ d = []) ->
  rooted w -> rooted w'.
Proof.
  intros L N D (R1 & R2 & R3). split; [lia|]. split; [by rewrite L|].
  intros srv d h Hd Hh. destruct (D srv d Hd) as [Hd' | ->].
  - by eapply R3.
  - by apply elem_of_nil in Hh.
Qed.

Lemma rooted_constructor fs : rooted (constructor fs).
Proof.
  split; [simpl; lia|]. split.
  - exists []. by rewrite app_nil_r.
  - intros srv d h Hd. simpl in Hd. by rewrite lookup_empty in Hd.
Qed.

Lemma rooted_connection srv socket w :
  rooted w -> rooted (ipc_connection srv socket w).
Proof.
  intros (R1 & (rest & L & R2) & R3).
  destruct (ipc_connection_spec srv socket w) as (_ & L' & N & D & _).
  split; [lia|]. split.
  - eexists. rewrite L', L, <- app_assoc. split; [done|].
    apply Forall_app. split; [done|].
    repeat (apply Forall_cons; split;
              [unfold connection_listener; simpl; split; [lia|auto 10]|]).
    constructor.
  - intros s d h Hd Hh. rewrite D in Hd.
    destruct (decide (srv = s)) as [<-|Hne].
    + rewrite lookup_insert_eq in Hd. injection Hd as <-.
      apply elem_of_app in Hh as [Hh|Hh].
      * destruct (disposableHandlers w !! srv) as [d|] eqn:Hsrv;
          [by eapply R3|by apply elem_of_nil in Hh].
      * rewrite !elem_of_cons, elem_of_nil in Hh. lia.
    + rewrite lookup_insert_ne in Hd by done. by eapply R3.
Qed.

Lemma rooted_close srv w : rooted w -> rooted (ipc_close srv w).
Proof.
  intros (R1 & (rest & L & R2) & R3).
  destruct (ipc_close_spec srv w) as (_ & _ & L' & N & D & _).
  split; [lia|]. split.
  - exists (filter (fun l =>
                      handle l ∉ default [] (disposableHandlers w !! srv))
              rest).
    rewrite L', L, filter_app. split; [|by apply Forall_filter_keep].
    f_equal. apply filter_Forall_all.
    assert (forall h, h < 5 ->
              h ∉ default [] (disposableHandlers w !! srv)) as Hlow.
    { intros h Hh Hin.
      destruct (disposableHandlers w !! srv) as [d|] eqn:Hsrv;
        [|by apply elem_of_nil in Hin].
      apply (R3 srv d h Hsrv) in Hin. lia. }
    repeat (apply Forall_cons; split; [apply Hlow; simpl; lia|]).
    constructor.
  - intros s d h Hd Hh. rewrite D in Hd.
    destruct (decide (srv = s)) as [<-|Hne].
    + rewrite lookup_insert_eq in Hd. injection Hd as <-.
      by apply elem_of_nil in Hh.
    + rewrite lookup_insert_ne in Hd by done. by eapply R3.
Qed.

(** In every world the event loop can reach, [rooted] holds. *)
Lemma rooted_run fs es : rooted (run es (constructor fs)).
Proof.
  apply invariant_run; [..|apply rooted_constructor].
  - intros w w' F _. injection F as Fa Fb Fc Fd Fe Ff Fg Fh Fi.
    apply rooted_bus; [done|lia|]. rewrite Fh. by left.
  - intros w. apply rooted_bus; [done..|]. by left.
  - intros env request w. apply rooted_bus; apply start_bus.
  - intros srv socket w _. apply rooted_connection.
  - intros srv w _. apply rooted_close.
  - intros w. apply rooted_bus; [done..|]. by left.
  - intros pid w _.
    destruct (server_exit_bus (filter (fun p => p <> pid) (children w)) w)
      as (L & N & D & _).
    apply rooted_bus; [done|lia|]. rewrite D. by left.
Qed.

End Reachable.

(** ** What holds in every reachable world *)

Section ReachableWorlds.
Context `{Host}.

Lemma tracks_process w w' :
  server w' = server w -> children w' = children w -> tracks w -> tracks w'.
Proof. intros S C T pid. rewrite S, C. apply T. Qed.

Lemma tracks_start env request w :
  tracks w -> tracks (after (start env request) w).
Proof.
  intros T. unfold after.
  destruct (start_spec env request w)
    as (_ & _ & _ & _ & [(e & _ & _ & F & _)|(_ & _ & _ & _ & F)]).
  - injection F as Fa Fb Fc Fd Fe Ff Fg Fh Fi. by apply (tracks_process w).
  - destruct (execFile_returns env) as [|pid|pid];
      injection F as Fa Fb Fc Fd Fe Ff Fg Fh Fi;
      try (by apply (tracks_process w)).
    intros pid'. rewrite Fd, Fi. intros [= <-]. set_solver.
Qed.

(** In every world the event loop can reach, the tracked process has not
    exited. *)
Lemma tracks_run fs es : tracks (run es (constructor fs)).
Proof.
  apply invariant_run; [..|by intros pid].
  - intros w w' F _. injection F as Fa Fb Fc Fd Fe Ff Fg Fh Fi.
    by apply tracks_process.
  - intros w. by apply tracks_process.
  - apply tracks_start.
  - intros srv socket w _. by apply tracks_process.
  - intros srv w _. unfold ipc_close.
    match goal with |- context [forEach dispose ?d ?w0] =>
      destruct (forEach_dispose_process d w0) as [S C] end.
    by apply tracks_process.
  - intros w. by apply tracks_process.
  - intros pid w _ _ pid'.
    destruct (server_exit_bus (filter (fun p => p <> pid) (children w)) w)
      as (_ & _ & _ & -> & _). done.
Qed.

Lemma synced_calm w w' : calm w w' -> synced w -> synced w'.
Proof.
  intros (S & _ & k & B) Hs. unfold synced. rewrite B, S.
  destruct k as [|k]; [by rewrite app_nil_r|].
  left. by rewrite replicate_S_end, app_assoc, last_snoc.
Qed.

Lemma synced_announced w w' :
  broadcasts (effects w') = broadcasts (effects w) ++ [state w'] ->
  synced w'.
Proof. intros B. left. by rewrite B, last_snoc. Qed.

Lemma start_state env request w : state (after (start env request) w) = booting.
Proof.
  unfold after.
  destruct (start_spec env request w)
    as (_ & _ & _ & _ & [(e & _ & _ & F & _)|(_ & _ & _ & _ & F)]).
  - by injection F.
  - destruct (execFile_returns env); by injection F.
Qed.

(** In every world the event loop can reach, the last state broadcast is the
    state. *)
Lemma synced_run fs es : synced (run es (constructor fs)).
Proof.
  apply invariant_run; [..|by right].
  - intros w w' F B. unfold synced. rewrite B.
    by injection F as ->.
  - intros w _. apply (synced_announced w). unfold ackState. by observe.
  - intros env request w _. apply (synced_announced w).
    rewrite start_state. unfold after. apply start_spec.
  - intros srv socket w _. apply synced_calm, calm_ipc_connection.
  - intros srv w _. apply synced_calm, calm_ipc_close.
  - intros w _. apply (synced_announced w). unfold toState, ackState.
    by observe.
  - intros pid w _ _.
    match goal with |- synced (server_exit ?w0) =>
      destruct (server_exit_spec w0) as [S B] end.
    eapply synced_announced. rewrite S. exact B.
Qed.

Lemma filter_connection_listeners (e : ClientEvent) rest :
  Forall connection_listener rest ->
  e = ev_ackState \/ e = ev_start \/ e = ev_stop \/ e = ev_refreshResources ->
  filter (fun l => listens_to l = e) rest = [].
Proof.
  intros Hrest He. induction Hrest as [|l rest [_ Hl] _ IH]; [done|].
  rewrite filter_cons_False; [done|]. intros Heq. rewrite Heq in Hl.
  destruct He as [-> | [-> | [-> | ->]]];
    destruct Hl as [[? ?]|[[? ?]|[[? ?]|[? ?]]]]; discriminate.
Qed.

(** X1: whatever the event loop has delivered, the five listeners the
    constructor registered are on the client bus, ahead of all others: the
    teardown of an IPC server never releases them. *)
Theorem constructor_listeners_stay (fs : gmap string Node) (es : list Event) :
  listeners (constructor fs) `prefix_of` listeners (run es (constructor fs)).
Proof.
  destruct (rooted_run fs es) as (_ & (rest & L & _) & _).
  exists rest. exact L.
Qed.

(** X2: in every world the event loop can reach, a state request of the
    client runs one listener, that of the constructor, which emits the
    current state once; nothing else changes. *)
Theorem ackState_answers (fs : gmap string Node) (es : list Event)
    (env : Env) :
  let w := run es (constructor fs) in
  let w' := step (ClientSends env msg_ackState) w in
  effects w' = effects w ++ [Invoke 0; Emit (emit_state (state w))]
  /\ fields w' = fields w /\ files w' = files w.
Proof.
  intros w w'. subst w'.
  destruct (rooted_run fs es) as (_ & (rest & L & R) & _). fold w in L.
  cbn [step]. unfold client_receives. rewrite L, filter_app.
  rewrite (filter_connection_listeners _ _ R) by auto.
  assert (filter (fun l => listens_to l = event_of msg_ackState)
            (listeners (constructor ∅))
          = [Build_Listener 0 ev_ackState on_ackState]) as -> by reflexivity.
  cbn. by rewrite <- app_assoc.
Qed.

(** X3: in every world the event loop can reach, the last state that was
    broadcast is the current state; before the first broadcast the state is
    [down]. *)
Theorem last_broadcast_is_state (fs : gmap string Node) (es : list Event) :
  let w := run es (constructor fs) in
  last (broadcasts (effects w)) = Some (state w)
  \/ (broadcasts (effects w) = [] /\ state w = down).
Proof. apply synced_run. Qed.

(** X5: in every world the event loop can reach, the process [stop] and the
    exit hook of the supervisor signal is one that has not exited: both kill
    the tracked process, once, and change nothing else. *)
Theorem stop_kills_live_process (fs : gmap string Node) (es : list Event)
    (pid : nat) :
  let w := run es (constructor fs) in
  server w = Some pid ->
  pid ∈ children w
  /\ stop w = perform (Kill pid) w
  /\ step SupervisorExits w = perform (Kill pid) w.
Proof.
  intros w Hs. split; [by apply tracks_run|].
  unfold step, process_exit, stop. by rewrite Hs.
Qed.

(** One listener forwarding the directive of [m] to the peer. *)
Lemma listener_forwards env m eventType data l w socket :
  directive m = Some (eventType, data) ->
  listens_to l = event_of m ->
  l ∈ listeners (constructor ∅) \/ connection_listener l ->
  ipcSocket w = Some socket ->
  let w' := call env (closure l) m (perform (Invoke (handle l)) w) in
  ipcSocket w' = Some socket
  /\ written (effects w') = written (effects w) ++ [(socket, eventType, data)].
Proof.
  intros Hd He Hl Hs.
  assert (closure l = on_restartResource /\ event_of m = ev_restartResource
          \/ connection_listener l) as [[Hc Hm]|[_ Hc]].
  { destruct Hl as [Hl|Hl]; [|by right]. left.
    simpl in Hl. rewrite !elem_of_cons, elem_of_nil in Hl.
    destruct Hl as [-> | [-> | [-> | [-> | [-> | []]]]]]; simpl in *;
      destruct m; try discriminate; done. }
  - rewrite Hc. destruct m; try discriminate. injection Hd as <- <-.
    cbn. unfold handleResourceRestart, sendIpcEvent. cbn. rewrite Hs.
    split; [done|]. by observe.
  - rewrite He in Hc.
    destruct Hc as [[Hm ->] | [[Hm ->] | [[Hm ->] | [Hm ->]]]];
      destruct m; try discriminate; injection Hd as <- <-;
      cbn; unfold sendIpcEvent; cbn; rewrite Hs; (split; [done|]);
      by observe.
Qed.

Lemma listeners_forward env m eventType data socket ls : forall w,
  directive m = Some (eventType, data) ->
  Forall (fun l => listens_to l = event_of m
                   /\ (l ∈ listeners (constructor ∅)
                       \/ connection_listener l)) ls ->
  ipcSocket w = Some socket ->
  let w' :=
    forEach (fun l w => call env (closure l) m (perform (Invoke (handle l)) w))
      ls w in
  written (effects w')
  = written (effects w) ++ replicate (length ls) (socket, eventType, data).
Proof.
  induction ls as [|l ls IH]; intros w Hd Hls Hs; simpl.
  - by rewrite app_nil_r.
  - apply Forall_cons in Hls as [[He Hl] Hls].
    destruct (listener_forwards env m eventType data l w socket Hd He Hl Hs)
      as [Hs' Hw].
    rewrite (IH _ Hd Hls Hs'), Hw, <- app_assoc. done.
Qed.

(** X12: in every world the event loop can reach, with a peer connected, a
    request to restart, stop or start a resource, or to acknowledge the
    resources state, is written to the peer once per listener of its event:
    once per listener an IPC connection registered for it and not yet
    released, and for a restart once more, by the listener of the
    constructor. *)
Theorem requests_forwarded_per_listener (fs : gmap string Node)
    (es : list Event) (env : Env) (m : ClientMessage)
    (eventType : string) (data : option string) (socket : nat) :
  let w := run es (constructor fs) in
  let w' := step (ClientSends env m) w in
  let registered :=
    filter (fun l => listens_to l = event_of m) (drop 5 (listeners w)) in
  directive m = Some (eventType, data) ->
  ipcSocket w = Some socket ->
  written (effects w')
  = written (effects w)
    ++ replicate
         (length registered
          + if decide (event_of m = ev_restartResource) then 1 else 0)
         (socket, eventType, data).
Proof.
  intros w w' registered Hd Hs. subst w' registered.
  destruct (rooted_run fs es) as (_ & (rest & L & R) & _). fold w in L.
  cbn [step]. unfold client_receives.
  rewrite (listeners_forward env m eventType data socket _ w Hd); [|..|done].
  - f_equal. f_equal. rewrite L, filter_app, length_app.
    change 5 with (length (listeners (constructor ∅))).
    rewrite drop_app_length, Nat.add_comm. f_equal.
    destruct m; try discriminate; reflexivity.
  - apply Forall_forall. intros l Hl.
    apply list_elem_of_filter in Hl as [He Hl]. split; [done|].
    rewrite L in Hl. apply elem_of_app in Hl as [Hl|Hl]; [by left|right].
    by eapply Forall_forall in R.
Qed.

End ReachableWorlds.

(** ** More of the behaviour of the class *)

Section Behaviour.
Context `{Host}.

(** X4: nothing but a start request, a ready line and the exit of a process
    changes the state: after any other event the state is what it was, and
    the only broadcasts are repeats of it. *)
Theorem state_kept_by_other_events (e : Event) (w : World) :
  between e ->
  announces_ready e = false ->
  state (step e w) = state w
  /\ exists k, broadcasts (effects (step e w))
               = broadcasts (effects w) ++ replicate k (state w).
Proof.
  intros Hb Hr. destruct (step_between e w Hb) as [_ Hstep].
  rewrite Hr in Hstep. destruct Hstep as (S & _ & B). by split.
Qed.

(** X6: the exit of a process [start] launched sets the state to [down]
    whatever it was, clears the process handle, closes the current IPC
    server if there is one and broadcasts [down] once; the peer and server
    references are left for the close of the IPC server, and a [stop] after
    the exit does nothing. *)
Theorem server_exit_goes_down (pid : nat) (w : World) :
  pid ∈ children w ->
  let w' := step (ServerExits pid) w in
  state w' = down /\ server w' = None /\ (pid ∉ children w')
  /\ ipcSocket w' = ipcSocket w /\ ipcServer w' = ipcServer w
  /\ effects w'
     = effects w
       ++ match ipcServer w with Some srv => [Close srv] | None => [] end
       ++ [Emit (emit_state down)]
  /\ stop w' = w'.
Proof.
  intros Hpid w'. subst w'. cbn [step]. rewrite decide_True by done.
  set (c := filter (fun p => p <> pid) (children w)).
  destruct (server_exit_bus c w) as (_ & _ & _ & S & C & S1 & S2).
  destruct (server_exit_spec (set_children c w)) as [St _].
  split; [done|]. split; [done|]. split.
  { rewrite C. subst c. rewrite list_elem_of_filter. by intros [? _]. }
  split; [done|]. split; [done|]. split.
  - unfold server_exit. simpl. destruct (ipcServer w); simpl; [|done].
    by rewrite <- app_assoc.
  - unfold stop. by rewrite S.
Qed.

(** X7: when [execFile] gives no process, or one without an output stream,
    [start] returns normally after logging the failure: the server was
    launched with the arguments, the state stays [booting], and no IPC
    server is made and no field assigned. *)
Theorem start_launch_failure (env : Env) (request : ServerStartRequest)
    (w : World) :
  (start env request w).1 = Returned tt ->
  (forall pid, execFile_returns env <> process pid) ->
  let w' := after (start env request) w in
  fields w' = fields (set_state booting w)
  /\ last (effects w') = Some (Log log_failed_to_start)
  /\ launches (effects w')
     = launches (effects w) ++ [fxserverArgs (enabledResourcesPaths request)].
Proof.
  intros R P w'. subst w'. unfold after.
  destruct (start_spec env request w)
    as (_ & _ & _ & _ & [(e & R' & _)|(_ & _ & _ & L & F)]); [congruence|].
  split; [|split; [|done]].
  - destruct (execFile_returns env) as [| |pid]; [done..|by destruct (P pid)].
  - pose proof (start_unfold env request w) as U. cbv zeta in U.
    rewrite U in R |- *.
    destruct (mkdirp _ _ _) as [[[]|?] w1]; [|done].
    destruct (linkResources _ _ _ w1) as [[[]|?] w2]; [|done].
    destruct (execFile_returns env) as [| |pid]; [..|by destruct (P pid)];
      apply last_snoc.
Qed.

(** X8: a [start] that cannot make the working directory or the links is
    rejected after the state was set to [booting] and broadcast: the state
    stays [booting], the server is not launched, and no other field
    changes. *)
Theorem start_rejected (env : Env) (request : ServerStartRequest)
    (e : Error) (w : World) :
  (start env request w).1 = Rejected e ->
  let w' := after (start env request) w in
  state w' = booting
  /\ fields w' = fields (set_state booting w)
  /\ broadcasts (effects w') = broadcasts (effects w) ++ [booting]
  /\ launches (effects w') = launches (effects w).
Proof.
  intros R w'. subst w'. unfold after.
  destruct (start_spec env request w)
    as (B & _ & _ & _ & [(e' & _ & _ & F & L)|(R' & _)]); [|congruence].
  split; [by injection F|]. done.
Qed.

(** X9: a [start] for which [execFile] returned a process with an output
    stream ends with a new IPC server listening on the pipe, nothing yet in
    its [disposableHandlers]; the process is tracked and has its exit
    listener, the list of the request is recorded, the state is [booting],
    and the peer reference and the listeners are left as they were. *)
Theorem start_launched (env : Env) (request : ServerStartRequest)
    (pid : nat) (w : World) :
  (start env request w).1 = Returned tt ->
  execFile_returns env = process pid ->
  let w' := after (start env request) w in
  let srv := next_handle w in
  state w' = booting
  /\ ipcServer w' = Some srv
  /\ disposableHandlers w' !! srv = Some []
  /\ last (effects w') = Some (Listen srv sdkGamePipeName)
  /\ server w' = Some pid /\ pid ∈ children w'
  /\ currentEnabledResourcesPaths w' = enabledResourcesPaths request
  /\ ipcSocket w' = ipcSocket w /\ listeners w' = listeners w.
Proof.
  intros R P w' srv. subst w' srv. unfold after.
  destruct (start_spec env request w)
    as (_ & _ & _ & _ & [(e & R' & _)|(_ & _ & _ & _ & F)]); [congruence|].
  rewrite P in F. injection F as Fa Fb Fc Fd Fe Ff Fg Fh Fi.
  rewrite Fa, Fb, Fc, Fd, Fe, Ff, Fh, Fi, lookup_insert_eq.
  repeat split; try done; [|set_solver].
  pose proof (start_unfold env request w) as U. cbv zeta in U.
  rewrite U in R, Fg |- *.
  destruct (mkdirp _ _ _) as [[[]|?] w1]; [|done].
  destruct (linkResources _ _ _ w1) as [[[]|?] w2]; [|done].
  rewrite P in Fg |- *. simpl in Fg |- *.
  injection Fg as <-. apply last_snoc.
Qed.

(** [refreshResources], with the sequencing spelled out. *)
Lemma refreshResources_unfold env request w :
  let cwd := getProjectServerPath (projectPath request) in
  refreshResources env request w
  = match mkdirp env cwd w with
    | (Rejected e, w1) => (Rejected e, w1)
    | (Returned _, w1) =>
        match linkResources env cwd (enabledResourcesPaths request) w1 with
        | (Rejected e, w2) => (Rejected e, w2)
        | (Returned _, w2) => (Returned tt, sendIpcEvent "refresh" None w2)
        end
    end.
Proof.
  intros cwd. unfold refreshResources. fold cwd. unfold bind at 1.
  destruct (mkdirp env cwd w) as [[[]|e1] w1]; [|done].
  unfold bind, lift.
  by destruct (linkResources _ _ _ w1) as [[[]|e2] w2].
Qed.

(** X10: [refreshResources] changes no field of the class. It is rejected
    before any linking when the working directory cannot be made; when the
    directories could be made it returns, and with a peer connected the
    refresh directive is written twice, once by the linker and once by the
    method itself. *)
Theorem refreshResources_refreshes_twice (env : Env)
    (request : ServerStartRequest) (w : World) :
  let cwd := getProjectServerPath (projectPath request) in
  let dir := join cwd "resources" in
  let r := refreshResources env request w in
  fields r.2 = fields w
  /\ (mkdirp_fails env cwd = true ->
      r.1 = Rejected (EFAIL "mkdir" cwd)
      /\ effects r.2 = effects w ++ [Mkdirp cwd])
  /\ (mkdirp_fails env cwd = false -> rimraf_fails env dir = false ->
      mkdirp_fails env dir = false ->
      forall socket, ipcSocket w = Some socket ->
        r.1 = Returned tt
        /\ written (effects r.2)
           = written (effects w)
             ++ [(socket, "refresh", None); (socket, "refresh", None)]).
Proof.
  intros cwd dir r. split; [apply refreshResources_fields|].
  pose proof (refreshResources_unfold env request w) as U. cbv zeta in U.
  fold cwd r in U. clearbody r. subst r.
  destruct (mkdirp_spec env cwd w) as (F1 & E1 & R1). unfold after in *.
  destruct (mkdirp env cwd w) as [o1 w1]; simpl in *. subst o1.
  split.
  - intros Hm. rewrite Hm. simpl. split; [done|exact E1].
  - intros Hc Hr Hm socket Hs. rewrite Hc.
    pose proof (linkResources_cases env cwd (enabledResourcesPaths request) w1)
      as C. cbv zeta in C. fold dir in C. destruct C as [F C].
    destruct C as [(? & _)|[(_ & ? & _)|(_ & _ & R & _ & ds & A & E)]];
      [congruence..|].
    destruct (linkResources _ _ _ w1) as [o2 w2]; simpl in *. subst o2.
    split; [done|]. simpl.
    assert (ipcSocket w2 = Some socket) as Hs2.
    { injection F. injection F1. congruence. }
    assert (ipcSocket w1 = Some socket) as Hs1 by (injection F1; congruence).
    rewrite sendIpcEvent_effects, Hs2, E, Hs1, E1, !written_app.
    match goal with |- context [written (Rimraf ?a :: Mkdirp ?b :: ?x)] =>
      change (written (Rimraf a :: Mkdirp b :: x)) with (written x)
    end.
    rewrite !written_app, (attempt_effects_written _ _ A). simpl.
    by rewrite app_nil_r, <- app_assoc.
Qed.

Lemma one_character_is_not (a : Ascii.ascii) (c1 c2 : Ascii.ascii)
    (s : string) :
  is_string (Some (JString (String a ""))) (String c1 (String c2 s)) = false.
Proof. simpl. by destruct (Ascii.eqb a c1). Qed.

(** X11: an inbound line that can be destructured and whose first element is
    neither the string [state] nor the string [ready] is dropped without a
    trace: nothing is logged, emitted or changed. So are, in particular,
    the empty array and every bare string, which is destructured into its
    characters. *)
Theorem ipc_data_unknown_dropped (w : World) :
  (forall value type data,
     destructure value = Returned (type, data) ->
     is_string type "state" = false -> is_string type "ready" = false ->
     ipc_data (Some value) w = w)
  /\ (forall s, ipc_data (Some (JString s)) w = w)
  /\ ipc_data (Some (JArray [])) w = w.
Proof.
  assert (forall value type data,
            destructure value = Returned (type, data) ->
            is_string type "state" = false -> is_string type "ready" = false ->
            ipc_data (Some value) w = w) as Hdrop.
  { intros value type data Hd Hs Hr.
    unfold ipc_data, after, try_catch. by rewrite Hd, Hs, Hr. }
  split; [exact Hdrop|]. split; [|done].
  intros [|a [|b s]].
  - by apply (Hdrop _ None None).
  - eapply Hdrop; [done|apply one_character_is_not..].
  - eapply Hdrop; [done|apply one_character_is_not..].
Qed.

Lemma link_result_made env links d s :
  NoDup links.*2 -> (s, d) ∈ links -> symlink_fails env s d = false ->
  link_result env links d None = Some (Symlink s).
Proof.
  induction links as [|[s' d'] links IH]; intros Hnd Hin Hok.
  - by apply elem_of_nil in Hin.
  - simpl in *. apply NoDup_cons in Hnd as [Hd' Hnd].
    apply elem_of_cons in Hin as [[= <- <-]|Hin].
    + rewrite decide_True, Hok by done. apply link_result_Some.
    + rewrite decide_False; [by apply IH|].
      intros ->. apply Hd'. apply list_elem_of_fmap. by exists (s, d).
Qed.

(** The files a returned [linkResources] leaves below the resources
    directory. *)
Lemma linkResources_links env fxserverCwd resourcesPaths w p :
  let dir := join fxserverCwd "resources" in
  let r := linkResources env fxserverCwd resourcesPaths w in
  r.1 = Returned tt -> inside dir p = true -> p <> dir ->
  files r.2 !! p
  = link_result env (resource_links dir resourcesPaths) p None.
Proof.
  intros dir r Hr Hin Hp.
  destruct (linkResources_cases env fxserverCwd resourcesPaths w)
    as [_ [(_ & R & _)|[(_ & _ & R & _)|(_ & _ & _ & F & _)]]];
    fold dir in R || idtac; fold r in R || idtac; try congruence.
  fold dir r in F.
  by rewrite F, make_dir_lookup, decide_False, sweep_lookup, Hin.
Qed.

(** X13: when [linkResources] returns on a host where no link fails and the
    links go to different paths below the resources directory, every link is
    there afterwards: that of the bridge resource and that of each requested
    resource, under its basename. *)
Theorem linkResources_makes_links (env : Env) (fxserverCwd : string)
    (resourcesPaths : list string) (w : World) :
  let dir := join fxserverCwd "resources" in
  let links := resource_links dir resourcesPaths in
  let r := linkResources env fxserverCwd resourcesPaths w in
  r.1 = Returned tt ->
  NoDup links.*2 ->
  (forall l, l ∈ links ->
     inside dir l.2 = true /\ l.2 <> dir /\ symlink_fails env l.1 l.2 = false) ->
  forall l, l ∈ links -> files r.2 !! l.2 = Some (Symlink l.1).
Proof.
  intros dir links r Hr Hnd Hok [s d] Hl.
  destruct (Hok _ Hl) as (Hin & Hd & Hs). simpl in *.
  subst r. rewrite linkResources_links by done.
  by apply link_result_made.
Qed.


(** X15: a connection the IPC server accepts becomes the peer at once: the
    next directive is written to its socket, whichever socket was the peer
    before. *)
Theorem connection_becomes_peer (srv socket : nat) (eventType : string)
    (data : option string) (w : World) :
  let w' := sendIpcEvent eventType data (ipc_connection srv socket w) in
  written (effects w') = written (effects w) ++ [(socket, eventType, data)].
Proof.
  intros w'. subst w'.
  destruct (ipc_connection_spec srv socket w) as (S & _).
  rewrite sendIpcEvent_effects, S, written_app.
  f_equal. unfold ipc_connection. by observe.
Qed.

(** X16: when the re-linking of a relink request is rejected while the state
    is [up], the request is rejected with it and no restart directive is
    sent: nothing is written to the peer. *)
Theorem relink_rejected_restarts_nothing (env : Env)
    (request : RelinkResourcesRequest) (e : Error) (w : World) :
  let cwd := getProjectServerPath (relinkProjectPath request) in
  let linked := linkResources env cwd (resourcesPaths request) w in
  let r := handleRelinkResources env request w in
  state w = up ->
  linked.1 = Rejected e ->
  r = linked /\ written (effects r.2) = written (effects w).
Proof.
  intros cwd linked r Hs Hl.
  assert (r = linked) as ->.
  { subst r. unfold handleRelinkResources. fold cwd.
    rewrite decide_False by (by rewrite Hs; intros []).
    unfold bind. fold linked. by destruct linked as [[[]|?] ?]. }
  split; [done|].
  pose proof (linkResources_adds env cwd (resourcesPaths request) w) as A.
  unfold after in A. fold linked in A.
  destruct (linkResources_cases env cwd (resourcesPaths request) w)
    as [_ [(_ & _ & _ & E)|[(_ & _ & _ & _ & E)|(_ & _ & R & _)]]];
    fold linked in E || idtac; fold linked in R || idtac; try congruence.
  - by rewrite E, written_app, app_nil_r.
  - by rewrite E, written_app, app_nil_r.
Qed.

End Behaviour.

(** ** Sending and receiving on the IPC channel *)

(** ** Sending on the IPC channel *)

(** C7: with no peer socket, [sendIpcEvent] returns normally, having logged
    the dropped message and written nothing. *)
Theorem sendIpcEvent_without_peer (eventType : string) (data : option string)
    (w : World) :
  ipcSocket w = None ->
  lift (sendIpcEvent eventType data) w
  = (Returned tt, perform (Log (log_no_ipcSocket eventType data)) w)
  /\ written (effects (sendIpcEvent eventType data w)) = written (effects w).
Proof.
  intros Hno. unfold lift, sendIpcEvent. rewrite Hno. split; [done|].
  unfold written. simpl. rewrite omap_app. simpl. by rewrite app_nil_r.
Qed.

Lemma sendIpcEvent_without_peer_witness :
  let w := constructor ∅ in
  lift (sendIpcEvent "restart" (Some "a")) w
  = (Returned tt, perform (Log (log_no_ipcSocket "restart" (Some "a"))) w)
  /\ written (effects (sendIpcEvent "restart" (Some "a") w))
     = written (effects w).
Proof.
  exact (sendIpcEvent_without_peer "restart" (Some "a") (constructor ∅)
           eq_refl).
Defined.

(** ** Inbound lines *)

(** C10: a line [["ready", ...]] sets the state to [up] and broadcasts it,
    whatever the state was. *)
Theorem ready_sets_up (rest : list Json) (w : World) :
  let w' := ipc_data (Some (JArray (JString "ready" :: rest))) w in
  w' = perform (Emit (emit_state up)) (set_state up w)
  /\ state w' = up
  /\ broadcasts (effects w') = broadcasts (effects w) ++ [up].
Proof.
  simpl. split; [done|]. split; [done|].
  unfold broadcasts. cbn. rewrite omap_app. done.
Qed.

(** C6, as the code has it: a line that is not JSON, or is JSON that cannot be
    destructured, is logged and dropped; the state, the peer, the server and
    the listeners stay as they are. *)
Theorem ipc_data_malformed (line : option Json) (w : World) :
  match line with Some value => iterable value = false | None => True end ->
  exists e,
    ipc_data line w = perform (Log (log_error_parsing line e)) w
    /\ state (ipc_data line w) = state w
    /\ ipcSocket (ipc_data line w) = ipcSocket w
    /\ ipcServer (ipc_data line w) = ipcServer w
    /\ listeners (ipc_data line w) = listeners w.
Proof.
  destruct line as [value|]; intros Hbad.
  - exists TypeError. by destruct value.
  - by exists SyntaxError.
Qed.

Lemma ipc_data_malformed_witness :
  let line := Some (JObject []) in
  let w := constructor ∅ in
  exists e,
    ipc_data line w = perform (Log (log_error_parsing line e)) w
    /\ state (ipc_data line w) = state w
    /\ ipcSocket (ipc_data line w) = ipcSocket w
    /\ ipcServer (ipc_data line w) = ipcServer w
    /\ listeners (ipc_data line w) = listeners w.
Proof.
  exact (ipc_data_malformed (Some (JObject [])) (constructor ∅) eq_refl).
Defined.

(** C6 as stated fails: the one-element array [["ready"]] is not well formed,
    yet it moves the state from [down] to [up] and nothing is logged. *)
Lemma ipc_data_short_array :
  let line := Some (JArray [JString "ready"]) in
  let w := constructor ∅ in
  ~ well_formed line
  /\ state w = down
  /\ state (ipc_data line w) = up
  /\ effects (ipc_data line w) = [Emit (emit_state up)].
Proof.
  simpl. split; [|done].
  intros (type & payload & Heq). discriminate Heq.
Qed.

(** ** Examples *)

Section Examples.
#[local] Existing Instance posix.

(** C1 as stated fails: a second start while the server is up is accepted,
    and the broadcasts from the first start to the exit of its process are
    [booting], [up], [booting], [down]. *)
Lemma start_while_up :
  let es := [IpcConnection 5 1; IpcData ready;
             ClientSends (fair 8) (msg_start request_ab)] in
  let w := constructor ∅ in
  let w' := run (es ++ [ServerExits 7]) (after (start (fair 7) request_ab) w) in
  (start (fair 7) request_ab w).1 = Returned tt
  /\ broadcasts (effects w') = [booting; up; booting; down]
  /\ ~ lifecycle_order (broadcasts (effects w')).
Proof.
  vm_compute. split; [done|]. split; [done|]. by intros [|].
Qed.

Lemma start_until_exit_witness :
  let es := [IpcConnection 5 1; IpcData ready;
             ClientSends (fair 7) msg_ackState] in
  let w := constructor ∅ in
  let w' := run (es ++ [ServerExits 7]) (after (start (fair 7) request_ab) w) in
  exists n m,
    broadcasts (effects w')
    = broadcasts (effects w)
      ++ replicate (S n) booting ++ replicate m up ++ [down]
    /\ state w' = down
    /\ (m = 0 <-> Forall (fun e => announces_ready e = false) es).
Proof.
  apply (start_until_exit (fair 7) request_ab 7).
  - vm_compute. reflexivity.
  - reflexivity.
  - repeat constructor.
Defined.

(** C2 fails on the code: [refreshResources] links the resources of its
    request and returns, and [currentEnabledResourcesPaths] is still the list
    of the start before it. *)
Theorem refreshResources_leaves_list :
  let w := after (start (fair 7) request_a) (constructor ∅) in
  let r := refreshResources (fair 7) request_ab w in
  (start (fair 7) request_a (constructor ∅)).1 = Returned tt
  /\ r.1 = Returned tt
  /\ files r.2 !! "/p/.fxserver/resources/b" = Some (Symlink "/p/res/b")
  /\ currentEnabledResourcesPaths r.2 = ["/p/res/a"]
  /\ currentEnabledResourcesPaths r.2 <> enabledResourcesPaths request_ab.
Proof.
  vm_compute. repeat split; done.
Qed.

(** C3 as stated fails: the close of a peer releases nothing. The peer
    reference stays, and when a second peer has connected a request to start
    a resource runs the listener of the first connection (handle 9) as well
    as that of the second (handle 13): the directive is written twice. *)
Lemma listeners_outlive_connection :
  let w := run [ClientSends (fair 7) (msg_start request_ab);
                IpcConnection 5 1; IpcPeerCloses 1] (constructor ∅) in
  let w' := run [IpcConnection 5 2;
                 ClientSends (fair 7) (msg_startResource "a")] w in
  ipcSocket w = Some 1
  /\ handles w = [0; 1; 2; 3; 4; 6; 7; 8; 9]
  /\ invoked (drop (length (effects w)) (effects w')) = [9; 13]
  /\ written (drop (length (effects w)) (effects w'))
     = [(2, "start", Some "a"); (2, "start", Some "a")].
Proof.
  vm_compute. repeat split; done.
Qed.

Lemma ipc_close_releases_witness :
  let w0 := run [ClientSends (fair 7) (msg_start request_ab)] (constructor ∅) in
  let w1 := step (IpcConnection 5 1) w0 in
  let w2 := run ([IpcData ready] ++ [IpcServerCloses 5]) w1 in
  9 ∈ handles w1
  /\ ipcSocket w2 = None /\ ipcServer w2 = None
  /\ (9 ∉ handles w2)
  /\ exists ran,
       invoked (effects (run [ClientSends (fair 7) (msg_startResource "a")] w2))
       = invoked (effects w2) ++ ran
       /\ 9 ∉ ran.
Proof.
  apply (ipc_close_releases ∅ [ClientSends (fair 7) (msg_start request_ab)]
           5 1 [IpcData ready]
           [ClientSends (fair 7) (msg_startResource "a")] 9).
  - exists []. vm_compute. reflexivity.
  - vm_compute. lia.
Defined.

(** C4 as stated fails: every path starts with the empty prefix, yet a request
    carrying it restarts nothing; the refresh of the re-linking is the only
    line written. *)
Lemma empty_prefix_restarts_nothing :
  let r := handleRelinkResources (fair 7) relink_all running in
  state running = up
  /\ ipcSocket running = Some 1
  /\ r.1 = Returned tt
  /\ filter (fun resourcePath => String.prefix "" resourcePath = true)
       (currentEnabledResourcesPaths running)
     = ["/p/res/a"; "/p/res/b"]
  /\ written (drop (length (effects running)) (effects r.2))
     = [(1, "refresh", None)].
Proof.
  vm_compute. repeat split; done.
Qed.

Lemma handleRelinkResources_restarts_witness :
  (handleRelinkResources (fair 7) relink_a (constructor ∅)
   = (Returned tt, constructor ∅))
  /\ (let linked := linkResources (fair 7) (getProjectServerPath "/p")
                      ["/p/res/a"; "/p/res/b"] running in
      let r := handleRelinkResources (fair 7) relink_a running in
      let restarted :=
        filter (fun resourcePath => String.prefix "/p/res/a" resourcePath = true)
          (currentEnabledResourcesPaths running) in
      r.1 = Returned tt
      /\ files r.2 = files linked.2
      /\ effects r.2
         = effects linked.2
           ++ flat_map (fun resourcePath =>
                          send_effects (ipcSocket running) "restart"
                            (Some (basename resourcePath)))
                restarted
      /\ forall socket, ipcSocket running = Some socket ->
           written (effects r.2)
           = written (effects running) ++ (socket, "refresh", None)
             :: map (fun resourcePath =>
                       (socket, "restart", Some (basename resourcePath)))
                  restarted).
Proof.
  split.
  - apply (proj1 (handleRelinkResources_restarts (fair 7) relink_a
                    (constructor ∅))).
    vm_compute. discriminate.
  - apply (proj1 (proj2 (handleRelinkResources_restarts (fair 7) relink_a
                           running))).
    + vm_compute. reflexivity.
    + vm_compute. reflexivity.
    + reflexivity.
    + discriminate.
Defined.


Lemma start_launch_arguments_witness :
  let w' := after (start (fair 7) request_ab) (constructor ∅) in
  launches (effects w')
  = launches (effects (constructor ∅))
    ++ [[ "+exec"; "blank";
          "+endpoint_add_tcp"; "127.0.0.1:30120";
          "+endpoint_add_udp"; "127.0.0.1:30120";
          "+set"; "onesync"; "on";
          "+set"; "sv_maxclients"; "64";
          "+set"; "sv_lan"; "1";
          "+add_ace"; "resource.sdk-game"; "command"; "allow";
          "+ensure"; "sdk-game" ]
        ++ flat_map (fun resourcePath => ["+ensure"; basename resourcePath])
             ["/p/res/a"; "/p/res/b"]].
Proof.
  apply (proj2 (proj2 (start_launch_arguments (fair 7) request_ab
                         (constructor ∅)))); reflexivity.
Defined.


End Examples.

(** ** More examples *)

Section MoreExamples.
#[local] Existing Instance posix.

Lemma state_kept_by_other_events_witness :
  let e := ClientSends (fair 7) msg_stop in
  state (step e running) = state running
  /\ exists k, broadcasts (effects (step e running))
               = broadcasts (effects running) ++ replicate k (state running).
Proof.
  apply (state_kept_by_other_events (ClientSends (fair 7) msg_stop) running).
  - exact I.
  - reflexivity.
Defined.

Lemma stop_kills_live_process_witness :
  let w := run boot (constructor ∅) in
  7 ∈ children w
  /\ stop w = perform (Kill 7) w
  /\ step SupervisorExits w = perform (Kill 7) w.
Proof.
  apply (stop_kills_live_process ∅ boot 7). vm_compute. reflexivity.
Defined.

Lemma server_exit_goes_down_witness :
  let w' := step (ServerExits 7) running in
  state w' = down /\ server w' = None /\ (7 ∉ children w')
  /\ ipcSocket w' = ipcSocket running /\ ipcServer w' = ipcServer running
  /\ effects w'
     = effects running
       ++ match ipcServer running with
          | Some srv => [Close srv]
          | None => []
          end
       ++ [Emit (emit_state down)]
  /\ stop w' = w'.
Proof.
  apply (server_exit_goes_down 7 running). vm_compute. constructor.
Defined.

Lemma start_launch_failure_witness :
  let w := constructor ∅ in
  let w' := after (start no_launch request_ab) w in
  fields w' = fields (set_state booting w)
  /\ last (effects w') = Some (Log log_failed_to_start)
  /\ launches (effects w')
     = launches (effects w) ++ [fxserverArgs (enabledResourcesPaths request_ab)].
Proof.
  apply (start_launch_failure no_launch request_ab (constructor ∅)).
  - vm_compute. reflexivity.
  - intros pid. discriminate.
Defined.

Lemma start_rejected_witness :
  let w := constructor ∅ in
  let w' := after (start no_rimraf request_ab) w in
  state w' = booting
  /\ fields w' = fields (set_state booting w)
  /\ broadcasts (effects w') = broadcasts (effects w) ++ [booting]
  /\ launches (effects w') = launches (effects w).
Proof.
  apply (start_rejected no_rimraf request_ab
           (EFAIL "rimraf" "/p/.fxserver/resources") (constructor ∅)).
  vm_compute. reflexivity.
Defined.

Lemma start_launched_witness :
  let w := constructor ∅ in
  let w' := after (start (fair 7) request_ab) w in
  let srv := next_handle w in
  state w' = booting
  /\ ipcServer w' = Some srv
  /\ disposableHandlers w' !! srv = Some []
  /\ last (effects w') = Some (Listen srv sdkGamePipeName)
  /\ server w' = Some 7 /\ 7 ∈ children w'
  /\ currentEnabledResourcesPaths w' = enabledResourcesPaths request_ab
  /\ ipcSocket w' = ipcSocket w /\ listeners w' = listeners w.
Proof.
  apply (start_launched (fair 7) request_ab 7 (constructor ∅)).
  - vm_compute. reflexivity.
  - reflexivity.
Defined.

Lemma refreshResources_refreshes_twice_witness :
  (let r := refreshResources no_workdir request_ab running in
   r.1 = Rejected (EFAIL "mkdir" (getProjectServerPath "/p"))
   /\ effects r.2 = effects running ++ [Mkdirp (getProjectServerPath "/p")])
  /\ (let r := refreshResources (fair 7) request_ab running in
      r.1 = Returned tt
      /\ written (effects r.2)
         = written (effects running)
           ++ [(1, "refresh", None); (1, "refresh", None)]).
Proof.
  split.
  - apply (proj1 (proj2 (refreshResources_refreshes_twice no_workdir
                           request_ab running))).
    reflexivity.
  - apply (proj2 (proj2 (refreshResources_refreshes_twice (fair 7)
                           request_ab running))); reflexivity.
Defined.

Lemma ipc_data_unknown_dropped_witness :
  ipc_data (Some (JArray [JString "hello"; JNull])) running = running.
Proof.
  apply (proj1 (ipc_data_unknown_dropped running)
           (JArray [JString "hello"; JNull]) (Some (JString "hello"))
           (Some JNull)); reflexivity.
Defined.

Lemma requests_forwarded_per_listener_witness :
  let w := run boot (constructor ∅) in
  let w' := step (ClientSends (fair 7) (msg_restartResource "a")) w in
  let registered :=
    filter (fun l => listens_to l = event_of (msg_restartResource "a"))
      (drop 5 (listeners w)) in
  written (effects w')
  = written (effects w)
    ++ replicate
         (length registered
          + if decide (event_of (msg_restartResource "a") = ev_restartResource)
            then 1 else 0)
         (1, "restart", Some "a").
Proof.
  apply (requests_forwarded_per_listener ∅ boot (fair 7)
           (msg_restartResource "a") "restart" (Some "a") 1).
  - reflexivity.
  - vm_compute. reflexivity.
Defined.

Lemma linkResources_makes_links_witness :
  let r := linkResources (fair 7) "/p/.fxserver" ["/p/res/a"; "/p/res/b"]
             (constructor ∅) in
  let l := ("/p/res/b", "/p/.fxserver/resources/b") in
  files r.2 !! l.2 = Some (Symlink l.1).
Proof.
  apply (linkResources_makes_links (fair 7) "/p/.fxserver"
           ["/p/res/a"; "/p/res/b"] (constructor ∅)).
  - vm_compute. reflexivity.
  - refine (bool_decide_unpack _ _). vm_compute. exact I.
  - intros l Hl. simpl in Hl.
    repeat (apply elem_of_cons in Hl as [->|Hl]);
      [..|by apply elem_of_nil in Hl];
      (split; [vm_compute; reflexivity|]);
      (split; [intros Heq; vm_compute in Heq; discriminate Heq|reflexivity]).
  - do 2 apply list_elem_of_further. apply list_elem_of_here.
Defined.


Lemma relink_rejected_restarts_nothing_witness :
  let linked := linkResources no_rimraf (getProjectServerPath "/p")
                  ["/p/res/a"; "/p/res/b"] running in
  let r := handleRelinkResources no_rimraf relink_a running in
  r = linked /\ written (effects r.2) = written (effects running).
Proof.
  apply (relink_rejected_restarts_nothing no_rimraf relink_a
           (EFAIL "rimraf" "/p/.fxserver/resources") running).
  - vm_compute. reflexivity.
  - vm_compute. reflexivity.
Defined.

End MoreExamples.
